(** * DRAGON: the random-forest kernel and the prototype / counterfactual
      extraction of [examples/Fashion-MNIST.ipynb]

    The notebook cells are embedded as executable functions.

    - A 2-D [ndarray] is the list of its rows; a 1-D array is a list.
      Integer arrays hold [Z], index arrays hold [nat].
    - A NumPy [float64] is modelled by the exact rational it approximates
      ([Q], compared with [==]): the counts accumulated by the kernel are
      small integers, exact in [float64]; the rounding of the divisions and
      of the sums of features is not modelled.  The only non-finite values
      the cells can produce come from a division by zero and are the extra
      constructors of [npfloat].
    - A cell that can raise runs in the exception monad [pyresult].
    - A call of a random generator or of a library sort is a parameter of
      the cell, constrained in the theorems by what the library promises.

    The cells that [examples/MNIST.ipynb] shares with this notebook and the
    stream of [examples/MNIST_Plus.ipynb] are covered as well. *)

From Stdlib Require Import ZArith QArith Qabs Qround Lia Lqa.
From stdpp Require Import base option list sorting gmap.

Local Open Scope Z_scope.

(** ** Python exceptions *)

Inductive exn : Type :=
| ValueError   (* np.argmin / np.argmax of an empty sequence *)
| IndexError   (* index out of bounds, boolean index of the wrong length *)
| KeyError.    (* missing dict key *)

Inductive pyresult (A : Type) : Type :=
| Ok (a : A)
| Raise (e : exn).
Arguments Ok {A} a.
Arguments Raise {A} e.

Definition py_bind {A B} (m : pyresult A) (k : A → pyresult B) : pyresult B :=
  match m with
  | Ok a => k a
  | Raise e => Raise e
  end.

#[global] Instance pyresult_bind : MBind pyresult :=
  λ A B (k : A → pyresult B) (m : pyresult A), py_bind m k.

(** [for x in xs: ys.append(f x)], stopping at the first exception. *)
Fixpoint py_for {A B} (f : A → pyresult B) (xs : list A) : pyresult (list B) :=
  match xs with
  | [] => Ok []
  | x :: xs' =>
      y ← f x;
      ys ← py_for f xs';
      Ok (y :: ys)
  end.

(** [for x in xs: s = f s x], stopping at the first exception. *)
Fixpoint py_fold {A S} (f : S → A → pyresult S) (s : S) (xs : list A) : pyresult S :=
  match xs with
  | [] => Ok s
  | x :: xs' =>
      s' ← f s x;
      py_fold f s' xs'
  end.

Definition of_option {A} (e : exn) (o : option A) : pyresult A :=
  match o with
  | Some a => Ok a
  | None => Raise e
  end.

(** ** NumPy primitives used by the cells *)

Module Np.

(** Result of a float division: finite, or what IEEE gives for [x / 0]. *)
Inductive npfloat : Type :=
| Fin (q : Q)
| PInf
| NInf
| NaN.

(** [a.shape[1]] of a 2-D array given by its rows.  For an array without
    rows the width is not recorded; no cell below depends on it. *)
Definition shape1 {A} (a : list (list A)) : nat :=
  match a with
  | [] => O
  | r :: _ => length r
  end.

(** [a[:, t]] *)
Definition column (a : list (list Z)) (t : nat) : list Z :=
  (λ r : list Z, default 0 (r !! t)) <$> a.

(** Iteration over [a.T]: the columns of [a], left to right. *)
Definition columns (a : list (list Z)) : list (list Z) :=
  column a <$> seq 0 (shape1 a).

(** [np.zeros((n, m))] *)
Definition zeros (n m : nat) : list (list Q) :=
  replicate n (replicate m 0%Q).

(** [v[:, None] == v[None, :]] *)
Definition outer_eq (v : list Z) : list (list bool) :=
  (λ a : Z, (λ b : Z, Z.eqb a b) <$> v) <$> v.

Definition bool_to_float (b : bool) : Q := if b then 1%Q else 0%Q.

(** [m += b] for a float matrix [m] and a boolean matrix [b] of its shape *)
Definition iadd_bool (m : list (list Q)) (b : list (list bool)) : list (list Q) :=
  zip_with (zip_with (λ x c, (x + bool_to_float c)%Q)) m b.

(** float [x / n] for an integer [n] *)
Definition true_divide (x : Q) (n : nat) : npfloat :=
  match n with
  | O => match (x ?= 0)%Q with
         | Eq => NaN
         | Gt => PInf
         | Lt => NInf
         end
  | S _ => Fin (x / inject_Z (Z.of_nat n))
  end.

(** [m /= n] *)
Definition idiv_scalar (m : list (list Q)) (n : nat) : list (list npfloat) :=
  (λ row : list Q, (λ x : Q, true_divide x n) <$> row) <$> m.

(** [np.unique(a)]: the distinct values of [a] in ascending order. *)
Fixpoint insert_unique (x : Z) (l : list Z) : list Z :=
  match l with
  | [] => [x]
  | y :: l' =>
      if x <? y then x :: y :: l'
      else if x =? y then y :: l'
      else y :: insert_unique x l'
  end.

Definition unique (a : list Z) : list Z := foldr insert_unique [] a.

(** [a == v] *)
Definition eq_scalar (a : list Z) (v : Z) : list bool :=
  (λ x : Z, x =? v) <$> a.

(** [a[mask]] for a boolean [mask]: NumPy demands equal lengths. *)
Fixpoint compress {A} (mask : list bool) (a : list A) : list A :=
  match mask, a with
  | b :: mask', x :: a' => if b then x :: compress mask' a' else compress mask' a'
  | _, _ => []
  end.

Definition bool_index {A} (a : list A) (mask : list bool) : pyresult (list A) :=
  if decide (length mask = length a) then Ok (compress mask a) else Raise IndexError.

(** [np.where(mask)[0]] *)
Fixpoint where_from (i : nat) (mask : list bool) : list nat :=
  match mask with
  | [] => []
  | b :: mask' => if b then i :: where_from (S i) mask' else where_from (S i) mask'
  end.

Definition where0 (mask : list bool) : list nat := where_from 0 mask.

(** [a[idx]] for an array [idx] of non-negative indices *)
Definition take {A} (a : list A) (idx : list nat) : pyresult (list A) :=
  py_for (λ i : nat, of_option IndexError (a !! i)) idx.

(** An integer index into an axis of length [n]; negative ones count from
    the end. *)
Definition wrap_index (n : nat) (i : Z) : pyresult nat :=
  if (0 <=? i) && (i <? Z.of_nat n) then Ok (Z.to_nat i)
  else if (- Z.of_nat n <=? i) && (i <? 0) then Ok (Z.to_nat (i + Z.of_nat n))
  else Raise IndexError.

(** [a[idx]] for an integer array [idx] *)
Definition take_int {A} (a : list A) (idx : list Z) : pyresult (list A) :=
  py_for (λ i : Z, k ← wrap_index (length a) i; of_option IndexError (a !! k)) idx.

(** [np.eye(3)] *)
Definition eye3 : list (list Q) :=
  [[1; 0; 0]; [0; 1; 0]; [0; 0; 1]]%Q.

(** [a.mean(axis=0)] of a 2-D array with at least one row.  (On an array
    without rows NumPy returns nan's; the cells average non-empty
    selections only, see [members_nonempty].) *)
Definition vadd (u v : list Q) : list Q := zip_with Qplus u v.

Definition sum_axis0 (rows : list (list Q)) : list Q :=
  match rows with
  | [] => []
  | r :: rs => foldl vadd r rs
  end.

Definition mean_axis0 (rows : list (list Q)) : list Q :=
  (λ s : Q, (s / inject_Z (Z.of_nat (length rows)))%Q) <$> sum_axis0 rows.

(** [((a - v)**2).sum(axis=1)], for rows of the width of [v] *)
Definition sqdist (row v : list Q) : Q :=
  foldl Qplus 0%Q (zip_with (λ x p : Q, ((x - p) ^ 2)%Q) row v).

Definition sqdists (a : list (list Q)) (v : list Q) : list Q :=
  (λ row : list Q, sqdist row v) <$> a.

Definition Qltb (x y : Q) : bool := negb (Qle_bool y x).

(** [np.argmin(a)]: index of the first minimum *)
Fixpoint argmin_from (best_i : nat) (best : Q) (i : nat) (a : list Q) : nat :=
  match a with
  | [] => best_i
  | x :: a' =>
      if Qltb x best then argmin_from i x (S i) a'
      else argmin_from best_i best (S i) a'
  end.

Definition argmin (a : list Q) : pyresult nat :=
  match a with
  | [] => Raise ValueError
  | x :: a' => Ok (argmin_from 0 x 1 a')
  end.

(** [np.argmax(a)]: index of the first maximum *)
Fixpoint argmax_from (best_i : nat) (best : Q) (i : nat) (a : list Q) : nat :=
  match a with
  | [] => best_i
  | x :: a' =>
      if Qltb best x then argmax_from i x (S i) a'
      else argmax_from best_i best (S i) a'
  end.

Definition argmax (a : list Q) : pyresult nat :=
  match a with
  | [] => Raise ValueError
  | x :: a' => Ok (argmax_from 0 x 1 a')
  end.

(** [a != v] *)
Definition ne_scalar (a : list Z) (v : Z) : list bool :=
  (λ x : Z, negb (x =? v)) <$> a.

(** [a[idx] = vals] for an index array [idx] and an array [vals] of the
    same length: the assignments are carried out in order. *)
Definition put {A} (a : list A) (idx : list nat) (vals : list A) : list A :=
  foldl (λ (acc : list A) (iv : nat * A), <[iv.1 := iv.2]> acc) a (zip idx vals).

(** [a * b] for boolean 1-D arrays, with NumPy's broadcasting of an array
    of length 1. *)
Definition mul_bool (a b : list bool) : pyresult (list bool) :=
  if decide (length a = length b) then Ok (zip_with andb a b)
  else match a, b with
       | [x], _ => Ok (andb x <$> b)
       | _, [y] => Ok ((λ x : bool, andb x y) <$> a)
       | _, _ => Raise ValueError
       end.

(** [a.sum()] of a boolean array: the number of its [True] entries. *)
Definition sum_bool (a : list bool) : nat :=
  foldr (λ (b : bool) (n : nat), if b then S n else n) O a.

(** [np.random.choice(a, size=size, replace=False)]: [draw] stands for the
    random generator; NumPy refuses a negative size and a sample larger
    than the population. *)
Definition choice_no_replace {A} (draw : list A → nat → list A)
    (a : list A) (size : Z) : pyresult (list A) :=
  if size <? 0 then Raise ValueError
  else if Z.of_nat (length a) <? size then Raise ValueError
  else Ok (draw a (Z.to_nat size)).




(** [np.cumsum(a)] of an integer array *)
Fixpoint cumsum_from (acc : Z) (a : list Z) : list Z :=
  match a with
  | [] => []
  | x :: a' => (acc + x) :: cumsum_from (acc + x) a'
  end.

Definition cumsum (a : list Z) : list Z := cumsum_from 0 a.

(** The counts of [np.unique(a, return_counts=True)], one per value of
    [unique a]. *)
Definition unique_counts (a : list Z) : list Z :=
  (λ v : Z, Z.of_nat (sum_bool (eq_scalar a v))) <$> unique a.

(** [np.random.choice(a, size)], a draw with replacement: [draw] stands for
    the random generator; NumPy refuses to draw from an empty array. *)
Definition choice {A} (draw : list A → nat → list A)
    (a : list A) (size : nat) : pyresult (list A) :=
  match a, size with
  | [], S _ => Raise ValueError
  | _, _ => Ok (draw a size)
  end.

End Np.

(** ** KernelBuilder (cell "Computing Random Forest kernel matrix", the
       same in [examples/MNIST.ipynb])

<<
rf_kernel_matrix = np.zeros((subset_size, subset_size))
leaf_indices = model.apply(X_subset.reshape(-1,28*28))
for leaf_vector in leaf_indices.T:
    rf_kernel_matrix += leaf_vector[:, None] == leaf_vector[None, :]
rf_kernel_matrix /= leaf_indices.shape[1]
>>
    [subset_size] is the number of rows of [X_subset], hence of
    [leaf_indices].  No statement of the cell raises: the shapes agree by
    construction and NumPy's division by zero yields nan with a warning. *)

Definition kernel_step (acc : list (list Q)) (leaf_vector : list Z) : list (list Q) :=
  Np.iadd_bool acc (Np.outer_eq leaf_vector).

Definition build_kernel (leaf_indices : list (list Z)) : pyresult (list (list Np.npfloat)) :=
  let subset_size := length leaf_indices in
  let rf_kernel_matrix := Np.zeros subset_size subset_size in
  let rf_kernel_matrix := foldl kernel_step rf_kernel_matrix (Np.columns leaf_indices) in
  Ok (Np.idiv_scalar rf_kernel_matrix (Np.shape1 leaf_indices)).

(** ** PrototypeExplainer, step A (cell "Compute drift localization")

<<
theta_decision = 0.6
y_pred = model.predict_proba(X_subset)[:,0]
has_drift = 2*np.abs(y_pred-0.5) > 1-theta_decision
before_drift = y_pred > 0.5
regions = (has_drift*(2*before_drift-1)).astype(int)
>> *)


Definition region_of (theta p : Q) : Z :=
  let has_drift := Np.Qltb (1 - theta) (2 * Qabs (p - 0.5)) in
  let before_drift := Np.Qltb 0.5 p in
  Z.b2z has_drift * (2 * Z.b2z before_drift - 1).


(** ** PrototypeExplainer, step C
       (cell "Compute Characteristic Samples and Counterfactual")

<<
counterfactuals = []
for cluster_id in np.unique(cluster):
    cf = dict()
    cf["region_dist"] = np.eye(3)[regions[cluster == cluster_id]+1].mean(axis=0)
    cf["region"] = [-1,0,1][np.argmax(cf["region_dist"])]
    cf["sample_euc"] = dict()
    cf["sample_rfk"] = dict()
    cf["proto_rfk"] = proj_proto = proj[cluster == cluster_id].mean(axis=0)
    cf["proto_euc"] = X_proto = X_subset[cluster == cluster_id].mean(axis=0)
    for region in [-1,0,1]:
        sel = np.where(regions == region)[0]
        cf["sample_euc"][region] = sel[np.argmin( ((X_subset[sel] - X_proto)**2).sum(axis=1) )]
        cf["sample_rfk"][region] = sel[np.argmin( ((proj[sel] - proj_proto)**2).sum(axis=1) )]
    counterfactuals.append(cf)
>> *)

(** The dict [cf]. *)
Record counterfactual : Type := Counterfactual {
  region_dist : list Q;
  region : Z;
  sample_euc : gmap Z nat;
  sample_rfk : gmap Z nat;
  proto_rfk : list Q;
  proto_euc : list Q
}.

(** [np.eye(3)[member_regions+1].mean(axis=0)] *)
Definition region_distribution (member_regions : list Z) : pyresult (list Q) :=
  onehot ← Np.take_int Np.eye3 ((λ r : Z, r + 1) <$> member_regions);
  Ok (Np.mean_axis0 onehot).

(** [[-1,0,1][np.argmax(region_dist)]] *)
Definition region_verdict (region_dist : list Q) : pyresult Z :=
  k ← Np.argmax region_dist;
  of_option IndexError ([-1; 0; 1] !! k).

(** [sel[np.argmin(((data[sel] - proto)**2).sum(axis=1))]] *)
Definition nearest (data : list (list Q)) (proto : list Q) (sel : list nat) : pyresult nat :=
  rows ← Np.take data sel;
  k ← Np.argmin (Np.sqdists rows proto);
  of_option IndexError (sel !! k).

(** One round of the inner loop [for region in [-1,0,1]]; the state is the
    pair of dicts [(cf["sample_euc"], cf["sample_rfk"])]. *)
Definition sample_step (proj X_subset : list (list Q)) (regions : list Z)
    (proj_proto X_proto : list Q)
    (d : gmap Z nat * gmap Z nat) (r : Z) : pyresult (gmap Z nat * gmap Z nat) :=
  let sel := Np.where0 (Np.eq_scalar regions r) in
  i_euc ← nearest X_subset X_proto sel;
  i_rfk ← nearest proj proj_proto sel;
  Ok (<[r := i_euc]> d.1, <[r := i_rfk]> d.2).

(** The body of the loop over the cluster ids. *)
Definition explain_cluster (proj : list (list Q)) (regions : list Z)
    (X_subset : list (list Q)) (cluster : list Z) (cluster_id : Z)
    : pyresult counterfactual :=
  let members := Np.eq_scalar cluster cluster_id in
  member_regions ← Np.bool_index regions members;
  dist ← region_distribution member_regions;
  verdict ← region_verdict dist;
  member_proj ← Np.bool_index proj members;
  let proj_proto := Np.mean_axis0 member_proj in
  member_X ← Np.bool_index X_subset members;
  let X_proto := Np.mean_axis0 member_X in
  d ← py_fold (sample_step proj X_subset regions proj_proto X_proto) (∅, ∅) [-1; 0; 1];
  Ok {| region_dist := dist; region := verdict;
        sample_euc := d.1; sample_rfk := d.2;
        proto_rfk := proj_proto; proto_euc := X_proto |}.

Definition explain (proj : list (list Q)) (regions : list Z)
    (X_subset : list (list Q)) (cluster : list Z) : pyresult (list counterfactual) :=
  py_for (explain_cluster proj regions X_subset cluster) (Np.unique cluster).

(** ** PrototypeExplainer, step D (cell "Plot Counterfactuals")

<<
drifting_counterfactuals = list(filter(lambda cf: cf["region"] != 0, counterfactuals))
for cf_type in ["sample_euc","sample_rfk"]:
    for cf,frames in zip(drifting_counterfactuals, ...):
        for rel_region,frame in zip([1,-1],list(frames)):
            frame.imshow(X_subset[cf[cf_type][rel_region*cf["region"]]] ...)
>>
    The model returns the sample indices handed to the plotting layer. *)




(** ** Display of the kernel (cell "Sort the subset ... by their ground
       truth class")

<<
sorted_indices_by_class = np.argsort(y_subset)
plt.matshow(rf_kernel_matrix[sorted_indices_by_class, :][:, sorted_indices_by_class])
>>
    [np.argsort] is a library routine; the model takes the array of indices
    it returns and computes the matrix handed to [matshow]. *)

Definition reorder {A} (m : list (list A)) (idx : list nat) : pyresult (list (list A)) :=
  rows ← Np.take m idx;
  py_for (λ row : list A, Np.take row idx) rows.

(** ** Characteristic samples (cell "Plot Characteristic Samples")

<<
for cf,frames in zip(counterfactuals, ...):
    for cf_type,frame in zip(["sample_euc","sample_rfk"],list(frames)):
        frame.imshow(X_subset[cf[cf_type][cf["region"]]].reshape(28,28))
>>
    The model returns, per cluster, the two feature rows handed to
    [imshow] (the reshape to 28×28 is a change of layout). *)



(** ** Temporal labels (cell "Map each digit to a label ...")

<<
label_map = { 0: 1, 1: 1, 2: 2, 3: 2, 4: 0, 5: 0, 6: 0, 7: 3, 8: 0, 9: 3 }
y_mapped = np.array([label_map[digit] for digit in y])
X_clean = X.copy().reshape(-1, 28*28)[y_mapped != 0]
y_clean = y.copy()[y_mapped != 0]
y_mapped_clean = y_mapped.copy()[y_mapped != 0]
label_3_idx = np.where(y_mapped_clean == 3)[0]
y_mixed = y_mapped_clean.copy()
y_mixed[label_3_idx] = np.random.choice([1, 2], size=len(label_3_idx))
>>
    A dict literal is the list of its items, in the order written (the
    keys of both notebooks' literals are distinct).  The images are the
    rows of [X]; their reshaping is a change of layout.  The random draw is
    a parameter: [choice k] is the array that
    [np.random.choice([1, 2], size=k)] returns. *)

(** [d[k]] *)
Fixpoint dict_get (d : list (Z * Z)) (k : Z) : pyresult Z :=
  match d with
  | [] => Raise KeyError
  | (k', v) :: d' => if k' =? k then Ok v else dict_get d' k
  end.

(** The literal of [Fashion-MNIST.ipynb]. *)
Definition label_map_fashion : list (Z * Z) :=
  [(0, 1); (1, 1); (2, 2); (3, 2); (4, 0); (5, 0); (6, 0); (7, 3); (8, 0); (9, 3)].

(** The literal of [MNIST.ipynb]. *)
Definition label_map_mnist : list (Z * Z) :=
  [(0, 0); (1, 1); (2, 0); (3, 1); (4, 3); (5, 0); (6, 0); (7, 2); (8, 2); (9, 0)].

Record cleaned (A : Type) : Type := Cleaned {
  X_clean : list A;
  y_clean : list Z;
  y_mapped_clean : list Z;
  y_mixed : list Z
}.
Arguments Cleaned {A} _ _ _ _.
Arguments X_clean {A} _.
Arguments y_clean {A} _.
Arguments y_mapped_clean {A} _.
Arguments y_mixed {A} _.

Definition clean_labels {A} (label_map : list (Z * Z)) (choice : nat → list Z)
    (X : list A) (y : list Z) : pyresult (cleaned A) :=
  y_mapped ← py_for (dict_get label_map) y;
  let keep := Np.ne_scalar y_mapped 0 in
  X_clean ← Np.bool_index X keep;
  y_clean ← Np.bool_index y keep;
  y_mapped_clean ← Np.bool_index y_mapped keep;
  let label_3_idx := Np.where0 (Np.eq_scalar y_mapped_clean 3) in
  let y_mixed := Np.put y_mapped_clean label_3_idx (choice (length label_3_idx)) in
  Ok (Cleaned X_clean y_clean y_mapped_clean y_mixed).

(** ** Sanity checks (cell "Sanity check using true label information")

<<
confusion_mtx_true_label = np.zeros( (np.unique(y_subset).shape[0],np.unique(cluster).shape[0]) )
for i,true_label in enumerate(np.unique(y_subset)):
    for j,cluster_id in enumerate(np.unique(cluster)):
        confusion_mtx_true_label[i,j] = ((y_subset==true_label)*(cluster==cluster_id)).sum() / (cluster==cluster_id).sum()

confusion_mtx_time_label = np.zeros( (3,np.unique(cluster).shape[0]) )
for i,time_label in enumerate(range(1,4)):
    for j,cluster_id in enumerate(np.unique(cluster)):
        for true_label in [k for k,v in label_map.items() if v == time_label]:
            confusion_mtx_time_label[i,j] += ((y_subset==true_label)*(cluster==cluster_id)).sum()
        confusion_mtx_time_label[i,j] /= (cluster==cluster_id).sum()
>>
    Every cell of the matrices is written in exactly one round of the
    loops, so the matrix is the list of the rows the rounds compute. *)

(** [((y_subset==true_label)*(cluster==cluster_id)).sum()] *)
Definition joint_sum (y_subset cluster : list Z) (true_label cluster_id : Z) : pyresult nat :=
  both ← Np.mul_bool (Np.eq_scalar y_subset true_label) (Np.eq_scalar cluster cluster_id);
  Ok (Np.sum_bool both).

Definition confusion_mtx_true_label (y_subset cluster : list Z)
    : pyresult (list (list Np.npfloat)) :=
  py_for (λ true_label : Z,
    py_for (λ cluster_id : Z,
      n ← joint_sum y_subset cluster true_label cluster_id;
      Ok (Np.true_divide (inject_Z (Z.of_nat n))
                         (Np.sum_bool (Np.eq_scalar cluster cluster_id))))
      (Np.unique cluster))
    (Np.unique y_subset).

(** [[k for k,v in label_map.items() if v == time_label]] *)
Definition keys_with (label_map : list (Z * Z)) (time_label : Z) : list Z :=
  (filter (λ kv : Z * Z, kv.2 = time_label) label_map).*1.

Definition confusion_mtx_time_label (label_map : list (Z * Z)) (y_subset cluster : list Z)
    : pyresult (list (list Np.npfloat)) :=
  py_for (λ time_label : Z,
    py_for (λ cluster_id : Z,
      total ← py_fold (λ (acc : Q) (true_label : Z),
                         n ← joint_sum y_subset cluster true_label cluster_id;
                         Ok (acc + inject_Z (Z.of_nat n))%Q)
                      0%Q (keys_with label_map time_label);
      Ok (Np.true_divide total (Np.sum_bool (Np.eq_scalar cluster cluster_id))))
      (Np.unique cluster))
    [1; 2; 3].

(** ** Display of a share of the samples (cells "t-SNE visualization", the
    loop body)

<<
percentage = 30
for label in set(y_subset):
    selection_label = y_subset == label
    num_samples = int(np.ceil(np.sum(selection_label) * percentage / 100))
    selection_random = np.random.choice(np.where(selection_label)[0], size=num_samples, replace=False)
>>
    The count and the percentage are integers, so their product is exact
    and the float quotient by 100 has the ceiling of the exact quotient. *)

Definition num_samples (selection_label : list bool) (percentage : Z) : Z :=
  Qceiling (inject_Z (Z.of_nat (Np.sum_bool selection_label) * percentage) / 100).

Definition selection_random (draw : list nat → nat → list nat)
    (y_subset : list Z) (percentage : Z) (label : Z) : pyresult (list nat) :=
  let selection_label := Np.eq_scalar y_subset label in
  Np.choice_no_replace draw (Np.where0 selection_label)
                       (num_samples selection_label percentage).

(** ** Model selection (cell "Train the model on the mixed training set")

<<
best_model, best_score = None, -5
start_nodes, end_nodes, step_size = 15, 50, 5
for max_leaf_nodes in range(start_nodes, end_nodes+1, step_size):
    rf_model = RandomForestClassifier(min_samples_leaf=max_leaf_nodes).fit(X_clean_train, y_mixed_train)
    test_score = rf_model.score(X_clean_test, y_mixed_test)
    if test_score > best_score:
        best_model = rf_model
        best_score = test_score
model = best_model
>>
    (the loop of the branch [if not skip_model_selection]).  [fit] stands
    for the training of a forest with the given parameter and [score] for
    its accuracy on the test set. *)




(** ** Class means (cell "Compute the mean image for each label")

<<
Xmean = np.zeros((len(set(y)), 28, 28))
for i in set(y):
    Xmean[i] = X[y == i].mean(axis=0)
>>
    An image is the row of its [D] pixels; [order] is the order in which
    the set [set(y)] is iterated. *)

Definition class_mean_round (X : list (list Q)) (y : list Z)
    (Xmean : list (list Q)) (i : Z) : pyresult (list (list Q)) :=
  rows ← Np.bool_index X (Np.eq_scalar y i);
  k ← Np.wrap_index (length Xmean) i;
  Ok (<[k := Np.mean_axis0 rows]> Xmean).

Definition class_means (order : list Z) (D : nat) (X : list (list Q)) (y : list Z)
    : pyresult (list (list Q)) :=
  py_fold (class_mean_round X y) (Np.zeros (length (Np.unique y)) D) order.

(** ** Similarity of the class means (cell "Compute the dot product between
    the mean images")

<<
scalar = np.zeros((Xmean.shape[0], Xmean.shape[0]))
for i in range(Xmean.shape[0]):
    for j in range(Xmean.shape[0]):
        scalar[i, j] = Xmean[i].flatten() @ Xmean[j].flatten()
scalar = scalar / (scalar.sum(axis=0)[:, None] * scalar.sum(axis=1)[None, :])
>>
*)




(** ** Ticks of the kernel display (cell "Sort the subset ... by their
    ground truth class", second part)

<<
unique_labels, label_counts = np.unique(y_subset, return_counts=True)
sort_indices = np.argsort(unique_labels)
unique_labels = unique_labels[sort_indices]
label_counts = label_counts[sort_indices]
midpoints = np.cumsum(label_counts) - label_counts / 2 - 1
>>
    [argsort] stands for [np.argsort]. *)

Definition midpoints (argsort : list Z → list nat) (y_subset : list Z)
    : pyresult (list Z * list Q) :=
  let unique_labels := Np.unique y_subset in
  let label_counts := Np.unique_counts y_subset in
  let sort_indices := argsort unique_labels in
  unique_labels ← Np.take unique_labels sort_indices;
  label_counts ← Np.take label_counts sort_indices;
  Ok (unique_labels,
      zip_with (λ s c : Z, (inject_Z s - inject_Z c / 2 - 1)%Q)
               (Np.cumsum label_counts) label_counts).

(** ** The stream of [MNIST_Plus.ipynb] (cells "we combine the two lines"
    and "Create Streams")

<<
y = np.array(X_vec_1.shape[0]*[0]+X_vec_1_turned.shape[0]*[1]+X_vec_plus.shape[0]*[2])

sel = np.hstack((np.random.choice(np.where(y!=1)[0], n),np.random.choice(np.where(y!=0)[0], n)))
stream_y = np.array( n*[0]+n*[1] )
stream_c = y[sel]
>>
    The three image arrays have the same number [n1] of images;
    [draw_before] and [draw_after] stand for the two draws of the random
    generator. *)

Definition plus_labels (n1 : nat) : list Z :=
  replicate n1 0 ++ replicate n1 1 ++ replicate n1 2.

Record stream := Stream {
  sel : list nat;
  stream_y : list Z;
  stream_c : list Z
}.

Definition create_streams (draw_before draw_after : list nat → nat → list nat)
    (y : list Z) (n : nat) : pyresult stream :=
  before ← Np.choice draw_before (Np.where0 (Np.ne_scalar y 1)) n;
  after ← Np.choice draw_after (Np.where0 (Np.ne_scalar y 0)) n;
  let sel := before ++ after in
  stream_c ← Np.take y sel;
  Ok (Stream sel (replicate n 0 ++ replicate n 1) stream_c).

(** ** Vocabulary of the specification

    The definitions below do not come from the notebook: they are the
    notions in which the properties are stated. *)

(** The shape predicate of an [N × T] array. *)
Definition rectangular {A} (N T : nat) (a : list (list A)) : Prop :=
  length a = N ∧ Forall (λ r, length r = T) a.

(** [m[i][j]] *)
Definition entry {A} (m : list (list A)) (i j : nat) : option A :=
  row ← m !! i; row !! j.

(** [|{t < T : ri[t] == rj[t]}|], the number of trees in which two rows of
    leaf identifiers agree. *)
Definition agree_count (T : nat) (ri rj : list Z) : nat :=
  length (filter (λ t : nat, ri !! t = rj !! t) (seq 0 T)).

(** The value of the cell [(i, j)] of the accumulator after the loop over
    the columns [cols], when it held [x] before. *)
Definition cell_sum (i j : nat) (x : Q) (cols : list (list Z)) : Q :=
  foldl (λ (y : Q) (col : list Z),
           (y + Np.bool_to_float (default 0%Z (col !! i) =? default 0%Z (col !! j))%Z)%Q)
        x cols.

(** Equality of float values, up to the representation of the rational. *)
Definition float_equiv (x y : Np.npfloat) : Prop :=
  match x, y with
  | Np.Fin p, Np.Fin q => (p == q)%Q
  | Np.PInf, Np.PInf | Np.NInf, Np.NInf | Np.NaN, Np.NaN => True
  | _, _ => False
  end.

(** The positions of [a] that hold [v], in ascending order: the members of
    cluster [v] when [a] is the cluster assignment, the samples of region
    [v] when [a] is the region array. *)
Definition members (a : list Z) (v : Z) : list nat :=
  filter (λ i : nat, a !! i = Some v) (seq 0 (length a)).

(** [sum(data[i][d] for i in idxs)] *)
Definition feature_sum (data : list (list Q)) (d : nat) (idxs : list nat) : Q :=
  foldr (λ (i : nat) (acc : Q), (default 0%Q (entry data i d) + acc)%Q) 0%Q idxs.

(** [sum(row[d] for row in rows)] *)
Definition column_sum (d : nat) (rows : list (list Q)) : Q :=
  foldr (λ (row : list Q) (acc : Q), (default 0%Q (row !! d) + acc)%Q) 0%Q rows.

(** The region values. *)
Definition in_range (r : Z) : Prop := r ∈ [-1; 0; 1].

(** The one-hot row of a region value, bins ordered [-1, 0, +1]. *)
Definition onehot (r : Z) : list Q :=
  (λ b : Z, Np.bool_to_float (r =? b)) <$> [-1; 0; 1].

(** The average of the one-hot bin [r] over the region values [rs]:
    the number of occurrences of [r] divided by the number of values. *)
Definition bin_average (r : Z) (rs : list Z) : Q :=
  (inject_Z (Z.of_nat (length (filter (λ x : Z, x = r) rs)))
   / inject_Z (Z.of_nat (length rs)))%Q.

(** The same average, over the samples [idxs] of the region array. *)
Definition region_share (regions : list Z) (idxs : list nat) (r : Z) : Q :=
  (inject_Z (Z.of_nat (length (filter (λ i : nat, regions !! i = Some r) idxs)))
   / inject_Z (Z.of_nat (length idxs)))%Q.

(** [proto] is the centroid of the rows [idxs] of the [D]-column array
    [data]: coordinate by coordinate, the sum over the rows divided by
    their number. *)
Definition is_centroid (data : list (list Q)) (idxs : list nat) (D : nat)
    (proto : list Q) : Prop :=
  length proto = D ∧
  ∀ d, (d < D)%nat →
    ∃ x, proto !! d = Some x ∧
         (x == feature_sum data d idxs / inject_Z (Z.of_nat (length idxs)))%Q.




(** A region value that [np.eye(3)[r+1]] rejects: below -4 or above 1. *)
Definition out_of_bounds (r : Z) : Prop := r < -4 ∨ 1 < r.

(** A renaming of the leaf identifiers, tree by tree: [f t] renames the
    leaves of tree [t]. *)
Definition relabel (f : nat → Z → Z) (a : list (list Z)) : list (list Z) :=
  (λ r : list Z, imap f r) <$> a.

(** The temporal label of a digit: its entry in the dict, 0 ("never")
    for a digit that is no key. *)
Definition time_label (label_map : list (Z * Z)) (digit : Z) : Z :=
  match dict_get label_map digit with
  | Ok v => v
  | Raise _ => 0
  end.


(** The number of samples in cluster [c]. *)
Definition cluster_size (cluster : list Z) (c : Z) : nat :=
  length (filter (λ x : Z, x = c) cluster).


(** What [np.argsort(a)] promises of its result [idx]: the indices of [a],
    each once, in an order along which the values do not decrease. *)
Definition is_argsort (a : list Z) (idx : list nat) : Prop :=
  idx ≡ₚ seq 0 (length a) ∧
  ∃ s, Np.take a idx = Ok s ∧ StronglySorted Z.le s.

(** The number of samples with a label less than [l]. *)
Definition below (y_subset : list Z) (l : Z) : nat :=
  length (filter (λ x : Z, x < l) y_subset).


(** A subset of five samples in two clusters (ids 0 and 2 out of 0..2). *)
Definition ex_proj : list (list Q) := [[0]; [1]; [4]; [5]; [9]]%Q.
Definition ex_X : list (list Q) := [[0; 0]; [2; 0]; [0; 4]; [6; 6]; [1; 1]]%Q.
Definition ex_regions : list Z := [-1; 1; 0; 1; -1].
Definition ex_cluster : list Z := [2; 0; 0; 2; 0].

(** * Properties *)

(** Membership of a literal in the region values. *)
Ltac in_range_solver := unfold in_range; set_solver.

(** ** KernelBuilder *)

Section Kernel.

Implicit Types (m acc : list (list Q)) (v col : list Z) (i j t : nat).

Lemma entry_Some {A} (a : list (list A)) i j x :
  entry a i j = Some x ↔ ∃ row, a !! i = Some row ∧ row !! j = Some x.
Proof.
  unfold entry. destruct (a !! i) as [row|]; simpl.
  - split; [by eexists|]. by intros (? & [= <-] & ?).
  - split; [done|]. by intros (? & ? & ?).
Qed.

Lemma entry_zeros n k i j :
  (i < n)%nat → (j < k)%nat → entry (Np.zeros n k) i j = Some 0%Q.
Proof.
  intros Hi Hj. apply entry_Some. exists (replicate k 0%Q).
  split; by apply lookup_replicate_2.
Qed.

Lemma entry_outer_eq v i j a b :
  v !! i = Some a → v !! j = Some b →
  entry (Np.outer_eq v) i j = Some (a =? b).
Proof.
  intros Hi Hj. apply entry_Some. eexists. unfold Np.outer_eq.
  rewrite !list_lookup_fmap, Hi. simpl. split; [done|].
  by rewrite list_lookup_fmap, Hj.
Qed.

Lemma entry_iadd_bool m (b : list (list bool)) i j x c :
  entry m i j = Some x → entry b i j = Some c →
  entry (Np.iadd_bool m b) i j = Some (x + Np.bool_to_float c)%Q.
Proof.
  intros (r & Hr & Hx)%entry_Some (rb & Hrb & Hc)%entry_Some.
  apply entry_Some. eexists. unfold Np.iadd_bool.
  rewrite lookup_zip_with, Hr. simpl. rewrite Hrb. simpl. split; [done|].
  rewrite lookup_zip_with, Hx. simpl. by rewrite Hc.
Qed.

Lemma entry_kernel_fold cols : ∀ acc i j x,
  entry acc i j = Some x →
  Forall (λ col, (i < length col)%nat ∧ (j < length col)%nat) cols →
  entry (foldl kernel_step acc cols) i j = Some (cell_sum i j x cols).
Proof.
  induction cols as [|col cols IH]; intros acc i j x Hx Hall; [done|].
  apply Forall_cons in Hall as [[Hi Hj] Hall]. simpl.
  apply lookup_lt_is_Some_2 in Hi as [a Ha].
  apply lookup_lt_is_Some_2 in Hj as [b Hb].
  unfold cell_sum. simpl. rewrite Ha, Hb. simpl.
  apply IH; [|done]. unfold kernel_step.
  apply entry_iadd_bool; [done|]. by apply entry_outer_eq.
Qed.

Lemma cell_sum_sym i j x cols : cell_sum i j x cols = cell_sum j i x cols.
Proof.
  revert x. unfold cell_sum.
  induction cols as [|col cols IH]; intros x; [done|].
  simpl. by rewrite IH, Z.eqb_sym.
Qed.

Lemma columns_rectangular N T (li : list (list Z)) :
  rectangular N T li → (1 ≤ N)%nat →
  Np.columns li = Np.column li <$> seq 0 T.
Proof.
  intros [HN Hrows] Hpos. unfold Np.columns.
  destruct li as [|r li]; simpl in *; [lia|].
  apply Forall_cons in Hrows as [-> _]. done.
Qed.

Lemma rectangular_lookup {A} N T (a : list (list A)) i r :
  rectangular N T a → a !! i = Some r → (i < N)%nat ∧ length r = T.
Proof.
  intros [HN Hrows] Hi. split.
  - rewrite <- HN. by eapply lookup_lt_Some.
  - by eapply (Forall_lookup_1 _ _ _ _ Hrows).
Qed.

Lemma Q_of_nat_S (k : nat) :
  (inject_Z (Z.of_nat (S k)) == inject_Z (Z.of_nat k) + 1)%Q.
Proof. rewrite Nat2Z.inj_succ. unfold Z.succ. by rewrite inject_Z_plus. Qed.

Lemma cell_sum_columns (li : list (list Z)) T i j ri rj :
  li !! i = Some ri → li !! j = Some rj →
  length ri = T → length rj = T →
  ∀ n s x, (s + n ≤ T)%nat →
  (cell_sum i j x (Np.column li <$> seq s n)
   == x + inject_Z (Z.of_nat (length (filter (λ t, ri !! t = rj !! t) (seq s n)))))%Q.
Proof.
  intros Hi Hj Hli Hlj. induction n as [|n IH]; intros s x Hle.
  - simpl. unfold cell_sum. simpl. ring.
  - simpl. unfold cell_sum in *. simpl.
    rewrite IH by lia. unfold Np.column at 1 2. rewrite !list_lookup_fmap, Hi, Hj. simpl.
    destruct (lookup_lt_is_Some_2 ri s) as [a Ha]; [lia|].
    destruct (lookup_lt_is_Some_2 rj s) as [b Hb]; [lia|].
    rewrite filter_cons, Ha, Hb. simpl.
    destruct (Z.eqb_spec a b) as [->|Hne].
    + rewrite decide_True by done. simpl length. rewrite Q_of_nat_S.
      unfold Np.bool_to_float. ring.
    + rewrite decide_False by congruence. unfold Np.bool_to_float. ring.
Qed.

Lemma iadd_bool_rectangular N m (b : list (list bool)) :
  rectangular N N m → rectangular N N b → rectangular N N (Np.iadd_bool m b).
Proof.
  intros [Hm Hrm] [Hb Hrb]. split.
  - unfold Np.iadd_bool. rewrite length_zip_with. lia.
  - apply Forall_lookup. intros i r. unfold Np.iadd_bool.
    rewrite lookup_zip_with. intros Hr.
    destruct (m !! i) as [rm|] eqn:Erm; [|done]. simpl in Hr.
    destruct (b !! i) as [rb|] eqn:Erb; [|done]. simpl in Hr.
    injection Hr as <-. rewrite length_zip_with.
    rewrite (Forall_lookup_1 _ _ _ _ Hrm Erm), (Forall_lookup_1 _ _ _ _ Hrb Erb). lia.
Qed.

Lemma outer_eq_rectangular v : rectangular (length v) (length v) (Np.outer_eq v).
Proof.
  split; unfold Np.outer_eq.
  - by rewrite length_fmap.
  - apply Forall_fmap, Forall_forall. intros a _. simpl. by rewrite length_fmap.
Qed.

Lemma kernel_fold_rectangular N cols : ∀ acc,
  rectangular N N acc → Forall (λ col, length col = N) cols →
  rectangular N N (foldl kernel_step acc cols).
Proof.
  induction cols as [|col cols IH]; intros acc Hacc Hall; [done|].
  apply Forall_cons in Hall as [Hcol Hall]. simpl. apply IH; [|done].
  apply iadd_bool_rectangular; [done|]. rewrite <- Hcol at 1 2.
  apply outer_eq_rectangular.
Qed.

Lemma zeros_rectangular n k : rectangular n k (Np.zeros n k).
Proof.
  split; unfold Np.zeros.
  - by rewrite length_replicate.
  - apply Forall_replicate. by rewrite length_replicate.
Qed.

Lemma idiv_scalar_rectangular N M m n :
  rectangular N M m → rectangular N M (Np.idiv_scalar m n).
Proof.
  intros [Hm Hr]. split; unfold Np.idiv_scalar.
  - by rewrite length_fmap.
  - apply Forall_fmap. eapply Forall_impl; [exact Hr|].
    intros r Hlen. simpl. by rewrite length_fmap.
Qed.

Lemma entry_idiv_scalar m n i j :
  entry (Np.idiv_scalar m n) i j = (λ x, Np.true_divide x n) <$> entry m i j.
Proof.
  unfold entry, Np.idiv_scalar. rewrite list_lookup_fmap.
  destruct (m !! i) as [r|]; simpl; [|done]. by rewrite list_lookup_fmap.
Qed.

Lemma columns_lengths N T (li : list (list Z)) :
  rectangular N T li →
  Forall (λ col, length col = N)
         (Np.column li <$> seq 0 T).
Proof.
  intros [HN _]. apply Forall_fmap, Forall_forall. intros t _. simpl.
  unfold Np.column. by rewrite length_fmap.
Qed.

(** The kernel of a rectangular array with at least one row and one
    column, cell by cell. *)
Lemma build_kernel_cells N T (li : list (list Z)) :
  rectangular N T li → (1 ≤ N)%nat → (1 ≤ T)%nat →
  ∃ K, build_kernel li = Ok K ∧ rectangular N N K ∧
    ∀ i j ri rj, li !! i = Some ri → li !! j = Some rj →
      ∃ y, entry K i j = Some (Np.Fin (y / inject_Z (Z.of_nat T))) ∧
           y = cell_sum i j 0 (Np.columns li) ∧
           (y == inject_Z (Z.of_nat (agree_count T ri rj)))%Q.
Proof.
  intros Hrect HN HT. eexists. split; [reflexivity|].
  assert (Np.shape1 li = T) as ->.
  { destruct Hrect as [Hlen Hrows]. destruct li as [|r li]; simpl in *; [lia|].
    by apply Forall_cons in Hrows as [-> _]. }
  rewrite (columns_rectangular N T li Hrect HN).
  assert (length li = N) as -> by apply Hrect.
  split.
  - apply idiv_scalar_rectangular, kernel_fold_rectangular.
    + apply zeros_rectangular.
    + by apply columns_lengths.
  - intros i j ri rj Hi Hj.
    destruct (rectangular_lookup _ _ _ _ _ Hrect Hi) as [HiN Hri].
    destruct (rectangular_lookup _ _ _ _ _ Hrect Hj) as [HjN Hrj].
    eexists. split; [|split; [reflexivity|]].
    + rewrite entry_idiv_scalar.
      erewrite entry_kernel_fold; [| by apply entry_zeros |].
      * simpl. unfold Np.true_divide. destruct T; [lia|]. reflexivity.
      * eapply Forall_impl; [by apply columns_lengths|]. simpl. lia.
    + rewrite (cell_sum_columns li T i j ri rj Hi Hj Hri Hrj) by lia.
      unfold agree_count. ring.
Qed.

Lemma agree_count_le T ri rj : (agree_count T ri rj ≤ T)%nat.
Proof.
  unfold agree_count. etrans; [apply length_filter|]. by rewrite length_seq.
Qed.

Lemma agree_count_diag T r : agree_count T r r = T.
Proof.
  unfold agree_count.
  assert (∀ l : list nat, length (filter (λ t, r !! t = r !! t) l) = length l) as Hall.
  { induction l as [|t l IH]; [done|].
    rewrite filter_cons, decide_True by done. simpl. by rewrite IH. }
  by rewrite Hall, length_seq.
Qed.

Lemma Q_of_nat_pos (T : nat) : (1 ≤ T)%nat → (0 < inject_Z (Z.of_nat T))%Q.
Proof. intros HT. change 0%Q with (inject_Z 0). rewrite <- Zlt_Qlt. lia. Qed.

(** C1: for a rectangular N×T array of leaf identifiers with N, T ≥ 1,
    [build_kernel] returns the N×N matrix whose cell (i, j) is (1/T) times
    the number of trees t in which rows i and j carry the same leaf; for
    [[1,5],[1,5],[2,5],[2,6]] this is
    [[1,1,.5,0],[1,1,.5,0],[.5,.5,1,.5],[0,0,.5,1]]. *)
Theorem build_kernel_spec N T (leaf_indices : list (list Z)) :
  rectangular N T leaf_indices → (1 ≤ N)%nat → (1 ≤ T)%nat →
  (∃ K, build_kernel leaf_indices = Ok K ∧ rectangular N N K ∧
     ∀ i j ri rj, leaf_indices !! i = Some ri → leaf_indices !! j = Some rj →
       ∃ q, entry K i j = Some (Np.Fin q) ∧
            (q == (1 / inject_Z (Z.of_nat T)) * inject_Z (Z.of_nat (agree_count T ri rj)))%Q) ∧
  (∃ K, build_kernel [[1; 5]; [1; 5]; [2; 5]; [2; 6]] = Ok K ∧
     Forall2 (Forall2 float_equiv) K
       [[Np.Fin 1;   Np.Fin 1;   Np.Fin 0.5; Np.Fin 0];
        [Np.Fin 1;   Np.Fin 1;   Np.Fin 0.5; Np.Fin 0];
        [Np.Fin 0.5; Np.Fin 0.5; Np.Fin 1;   Np.Fin 0.5];
        [Np.Fin 0;   Np.Fin 0;   Np.Fin 0.5; Np.Fin 1]]).
Proof.
  intros Hrect HN HT. split.
  - destruct (build_kernel_cells N T leaf_indices Hrect HN HT) as (K & HK & HKrect & Hcells).
    exists K. split; [done|]. split; [done|].
    intros i j ri rj Hi Hj.
    destruct (Hcells i j ri rj Hi Hj) as (y & Hentry & _ & Hy).
    eexists. split; [exact Hentry|]. rewrite Hy.
    pose proof (Q_of_nat_pos T HT) as Hpos. field. lra.
  - eexists. split; [vm_compute; reflexivity|].
    repeat (constructor; try reflexivity).
Qed.

Lemma build_kernel_spec_witness :
  let leaf_indices := [[1; 5]; [1; 5]; [2; 5]; [2; 6]] in
  rectangular 4 2 leaf_indices ∧
  ∃ K, build_kernel leaf_indices = Ok K ∧ rectangular 4 4 K ∧
     ∀ i j ri rj, leaf_indices !! i = Some ri → leaf_indices !! j = Some rj →
       ∃ q, entry K i j = Some (Np.Fin q) ∧
            (q == (1 / inject_Z (Z.of_nat 2)) * inject_Z (Z.of_nat (agree_count 2 ri rj)))%Q.
Proof.
  assert (rectangular 4 2 [[1; 5]; [1; 5]; [2; 5]; [2; 6]]) as Hrect.
  { split; [reflexivity|]. repeat constructor. }
  split; [exact Hrect|].
  apply (build_kernel_spec 4 2 _ Hrect); lia.
Defined.

(** C4: the kernel of a rectangular N×T array with N, T ≥ 1 is symmetric,
    has 1 on its diagonal and all its entries lie in [0, 1]. *)
Theorem build_kernel_symmetric_unit_diagonal_bounded N T (leaf_indices : list (list Z)) :
  rectangular N T leaf_indices → (1 ≤ N)%nat → (1 ≤ T)%nat →
  ∃ K, build_kernel leaf_indices = Ok K ∧
    ∀ i j, (i < N)%nat → (j < N)%nat →
      ∃ q, entry K i j = Some (Np.Fin q) ∧
           entry K j i = entry K i j ∧
           (0 <= q)%Q ∧ (q <= 1)%Q ∧
           (i = j → (q == 1)%Q).
Proof.
  intros Hrect HN HT.
  destruct (build_kernel_cells N T leaf_indices Hrect HN HT) as (K & HK & HKrect & Hcells).
  exists K. split; [done|]. intros i j Hi Hj.
  destruct Hrect as [Hlen Hrows].
  destruct (lookup_lt_is_Some_2 leaf_indices i) as [ri Hri]; [lia|].
  destruct (lookup_lt_is_Some_2 leaf_indices j) as [rj Hrj]; [lia|].
  destruct (Hcells i j ri rj Hri Hrj) as (y & Hentry & Hy & Hcount).
  destruct (Hcells j i rj ri Hrj Hri) as (y' & Hentry' & Hy' & _).
  pose proof (Q_of_nat_pos T HT) as Hpos.
  eexists. split; [exact Hentry|]. split; [|split; [|split]].
  - rewrite Hentry', Hentry, Hy, Hy'. by rewrite cell_sum_sym.
  - rewrite Hcount. apply Qle_shift_div_l; [done|].
    rewrite Qmult_0_l. change 0%Q with (inject_Z 0). rewrite <- Zle_Qle. lia.
  - rewrite Hcount. apply Qle_shift_div_r; [done|].
    rewrite Qmult_1_l. rewrite <- Zle_Qle.
    pose proof (agree_count_le T ri rj). lia.
  - intros ->. rewrite Hcount. assert (ri = rj) as -> by congruence.
    rewrite agree_count_diag. field. lra.
Qed.

Lemma build_kernel_symmetric_unit_diagonal_bounded_witness :
  let leaf_indices := [[1; 5]; [1; 5]; [2; 5]; [2; 6]] in
  rectangular 4 2 leaf_indices ∧
  ∃ K, build_kernel leaf_indices = Ok K ∧
    ∀ i j, (i < 4)%nat → (j < 4)%nat →
      ∃ q, entry K i j = Some (Np.Fin q) ∧
           entry K j i = entry K i j ∧
           (0 <= q)%Q ∧ (q <= 1)%Q ∧
           (i = j → (q == 1)%Q).
Proof.
  assert (rectangular 4 2 [[1; 5]; [1; 5]; [2; 5]; [2; 6]]) as Hrect.
  { split; [reflexivity|]. repeat constructor. }
  split; [exact Hrect|].
  apply (build_kernel_symmetric_unit_diagonal_bounded 4 2 _ Hrect); lia.
Defined.

(** C7, as claimed, fails: the cell checks nothing.  On an array without
    rows it returns the empty matrix, on an array without columns the
    matrix of nan's that 0/0 produces; neither is an error. *)
Lemma build_kernel_empty_input_returns :
  rectangular 0 2 ([] : list (list Z)) ∧
  build_kernel [] = Ok [] ∧
  rectangular 2 0 ([[]; []] : list (list Z)) ∧
  build_kernel [[]; []] = Ok [[Np.NaN; Np.NaN]; [Np.NaN; Np.NaN]] ∧
  ¬ (∀ N T (leaf_indices : list (list Z)),
       rectangular N T leaf_indices → N = O ∨ T = O →
       ∃ e, build_kernel leaf_indices = Raise e).
Proof.
  assert (rectangular 0 2 ([] : list (list Z))) as H0 by (split; [done|constructor]).
  split; [exact H0|]. split; [reflexivity|].
  split; [split; [done|repeat constructor]|]. split; [reflexivity|].
  intros Hclaim. destruct (Hclaim O 2%nat [] H0) as [e He]; [by left|].
  discriminate He.
Qed.

(** C7, amended: [build_kernel] validates nothing and raises nothing.
    For N = 0 the result is the empty matrix; for T = 0 it is the N×N
    matrix of nan's.  (An [ndarray] is rectangular by construction.) *)
Theorem build_kernel_degenerate_shapes N T (leaf_indices : list (list Z)) :
  rectangular N T leaf_indices →
  (N = O → build_kernel leaf_indices = Ok []) ∧
  (T = O → build_kernel leaf_indices = Ok (replicate N (replicate N Np.NaN))).
Proof.
  intros [Hlen Hrows]. split.
  - intros ->. apply nil_length_inv in Hlen as ->. reflexivity.
  - intros ->. unfold build_kernel. rewrite Hlen.
    assert (Np.shape1 leaf_indices = O) as Hs.
    { destruct leaf_indices as [|r li]; [done|]. simpl.
      by apply Forall_cons in Hrows as [-> _]. }
    unfold Np.columns. rewrite Hs. simpl. f_equal.
    unfold Np.idiv_scalar, Np.zeros. rewrite fmap_replicate. f_equal.
    by rewrite fmap_replicate.
Qed.

Lemma build_kernel_degenerate_shapes_witness :
  rectangular 2 0 ([[]; []] : list (list Z)) ∧
  (2%nat = O → build_kernel [[]; []] = Ok []) ∧
  (O = O → build_kernel [[]; []] = Ok (replicate 2 (replicate 2 Np.NaN))).
Proof.
  assert (rectangular 2 0 ([[]; []] : list (list Z))) as Hrect.
  { split; [reflexivity|]. repeat constructor. }
  split; [exact Hrect|].
  exact (build_kernel_degenerate_shapes 2 0 [[]; []] Hrect).
Defined.

End Kernel.

(** ** Region labelling *)

Lemma Qltb_lt x y : Np.Qltb x y = true ↔ (x < y)%Q.
Proof.
  unfold Np.Qltb. rewrite negb_true_iff, <- not_true_iff_false, Qle_bool_iff.
  split; [apply Qnot_le_lt | apply Qlt_not_le].
Qed.

Lemma Qltb_ge x y : Np.Qltb x y = false ↔ (y <= x)%Q.
Proof. unfold Np.Qltb. by rewrite negb_false_iff, Qle_bool_iff. Qed.






Lemma region_of_range theta p : region_of theta p ∈ [-1; 0; 1].
Proof.
  unfold region_of.
  destruct (Np.Qltb _ (2 * _)), (Np.Qltb 0.5 p); simpl; set_solver.
Qed.


(** ** The exception monad and the array primitives *)

Lemma py_bind_Ok {A B} (m : pyresult A) (k : A → pyresult B) b :
  (m ≫= k) = Ok b ↔ ∃ a, m = Ok a ∧ k a = Ok b.
Proof.
  destruct m as [a|e]; simpl.
  - split; [by exists a|]. by intros (? & [= <-] & ?).
  - split; [done|]. by intros (? & ? & ?).
Qed.

Lemma py_for_Ok {A B} (f : A → pyresult B) xs ys :
  py_for f xs = Ok ys ↔ Forall2 (λ x y, f x = Ok y) xs ys.
Proof.
  revert ys. induction xs as [|x xs IH]; intros ys; simpl.
  - split; [by intros [= <-]; constructor | by intros ->%Forall2_nil_inv_l].
  - rewrite py_bind_Ok. split.
    + intros (y & Hy & (ys' & Hys & [= <-])%py_bind_Ok).
      constructor; [done|]. by apply IH.
    + intros (y & ys' & Hy & Hys & ->)%Forall2_cons_inv_l.
      exists y. split; [done|]. apply py_bind_Ok. exists ys'.
      split; [by apply IH | done].
Qed.

Lemma py_for_total {A B} (f : A → pyresult B) xs :
  Forall (λ x, ∃ y, f x = Ok y) xs → ∃ ys, py_for f xs = Ok ys.
Proof.
  induction 1 as [|x xs [y Hy] _ [ys Hys]]; simpl; [by eexists|].
  rewrite Hy. simpl. rewrite Hys. simpl. by eexists.
Qed.

Lemma py_for_length {A B} (f : A → pyresult B) xs ys :
  py_for f xs = Ok ys → length ys = length xs.
Proof. intros H%py_for_Ok. symmetry. by eapply Forall2_length. Qed.

(** *** [np.argmin], [np.argmax] *)

Lemma argmin_from_spec a : ∀ pre best_i best,
  pre !! best_i = Some best →
  (∀ j x, pre !! j = Some x → (best <= x)%Q ∧ ((j < best_i)%nat → (best < x)%Q)) →
  ∃ m, (pre ++ a) !! Np.argmin_from best_i best (length pre) a = Some m ∧
    ∀ j x, (pre ++ a) !! j = Some x →
      (m <= x)%Q ∧ ((j < Np.argmin_from best_i best (length pre) a)%nat → (m < x)%Q).
Proof.
  induction a as [|y a IH]; intros pre best_i best Hbest Hmin; simpl.
  - rewrite app_nil_r. by exists best.
  - assert (length (pre ++ [y]) = S (length pre)) as Hlen
      by (rewrite length_app; simpl; lia).
    rewrite (cons_middle y pre a), app_assoc, <- Hlen.
    destruct (Np.Qltb y best) eqn:Hlt.
    + apply Qltb_lt in Hlt. apply IH.
      * rewrite lookup_app_r by lia. by rewrite Nat.sub_diag.
      * intros j x Hj. apply lookup_app_Some in Hj as [Hj | [Hge Hj]].
        -- destruct (Hmin j x Hj) as [Hle _]. split; [lra|]. intros _. lra.
        -- apply list_lookup_singleton_Some in Hj as [Hj ->].
           split; [lra|]. lia.
    + apply Qltb_ge in Hlt. apply IH.
      * by apply lookup_app_l_Some.
      * intros j x Hj. apply lookup_app_Some in Hj as [Hj | [Hge Hj]].
        -- by apply Hmin.
        -- apply list_lookup_singleton_Some in Hj as [Hj ->].
           split; [done|]. intros Hjb. apply lookup_lt_Some in Hbest. lia.
Qed.

(** [np.argmin] of a non-empty array returns the first index of a least
    element. *)
Lemma argmin_spec (a : list Q) :
  a ≠ [] →
  ∃ k m, Np.argmin a = Ok k ∧ a !! k = Some m ∧
    ∀ j x, a !! j = Some x → (m <= x)%Q ∧ ((j < k)%nat → (m < x)%Q).
Proof.
  destruct a as [|y a]; [done|]. intros _. simpl.
  destruct (argmin_from_spec a [y] O y) as (m & Hm & Hmin); [done| |].
  - intros j x Hj. apply list_lookup_singleton_Some in Hj as [-> ->].
    split; [lra | lia].
  - by exists (Np.argmin_from 0 y 1 a), m.
Qed.

Lemma argmax_from_argmin a : ∀ best_i best i,
  Np.argmax_from best_i best i a = Np.argmin_from best_i (- best) i (Qopp <$> a).
Proof.
  induction a as [|y a IH]; intros best_i best i; simpl; [done|].
  assert (Np.Qltb best y = Np.Qltb (- y) (- best)) as ->.
  { destruct (Np.Qltb (- y) (- best)) eqn:H.
    - apply Qltb_lt in H. apply Qltb_lt. lra.
    - apply Qltb_ge in H. apply Qltb_ge. lra. }
  destruct (Np.Qltb (- y) (- best)); apply IH.
Qed.

(** [np.argmax] of a non-empty array returns the first index of a greatest
    element. *)
Lemma argmax_spec (a : list Q) :
  a ≠ [] →
  ∃ k m, Np.argmax a = Ok k ∧ a !! k = Some m ∧
    ∀ j x, a !! j = Some x → (x <= m)%Q ∧ ((j < k)%nat → (x < m)%Q).
Proof.
  intros Ha. destruct (argmin_spec (Qopp <$> a)) as (k & m & Hk & Hm & Hmin).
  { by destruct a. }
  destruct a as [|y a]; [done|]. simpl in Hk. injection Hk as Hk.
  exists k. rewrite list_lookup_fmap in Hm.
  destruct ((y :: a) !! k) as [m'|] eqn:Hm'; [|done].
  injection Hm as <-. exists m'. split.
  { simpl. f_equal. rewrite argmax_from_argmin. exact Hk. }
  split; [done|]. intros j x Hj.
  destruct (Hmin j (- x)%Q) as [Hle Hlt].
  { by rewrite list_lookup_fmap, Hj. }
  split; [lra|]. intros Hjk. specialize (Hlt Hjk). lra.
Qed.

(** *** [np.unique] *)

Lemma elem_of_insert_unique x y l :
  y ∈ Np.insert_unique x l ↔ y = x ∨ y ∈ l.
Proof.
  induction l as [|z l IH]; simpl.
  - set_solver.
  - destruct (Z.ltb_spec x z); [set_solver|].
    destruct (Z.eqb_spec x z) as [->|Hne]; [set_solver|].
    rewrite !elem_of_cons, IH. naive_solver.
Qed.

Lemma insert_unique_sorted x l :
  StronglySorted Z.lt l → StronglySorted Z.lt (Np.insert_unique x l).
Proof.
  induction 1 as [|z l Hl IH Hz]; simpl.
  - repeat constructor.
  - destruct (Z.ltb_spec x z) as [Hlt|Hge].
    + constructor; [by constructor|]. constructor; [done|].
      eapply Forall_impl; [exact Hz|]. simpl. lia.
    + destruct (Z.eqb_spec x z) as [->|Hne]; [by constructor|].
      constructor; [done|]. apply Forall_forall. intros y Hy.
      apply elem_of_insert_unique in Hy as [->|Hy]; [lia|].
      by eapply (proj1 (Forall_forall _ _) Hz).
Qed.

Lemma elem_of_unique a x : x ∈ Np.unique a ↔ x ∈ a.
Proof.
  induction a as [|y a IH]; simpl; [done|].
  rewrite elem_of_insert_unique, IH. set_solver.
Qed.

Lemma unique_sorted a : StronglySorted Z.lt (Np.unique a).
Proof.
  induction a as [|y a IH]; simpl; [constructor|]. by apply insert_unique_sorted.
Qed.

Lemma unique_NoDup a : NoDup (Np.unique a).
Proof.
  generalize (unique_sorted a). generalize (Np.unique a). intros l Hs.
  induction Hs as [|c l Hs IH Hlt]; [constructor|]. constructor; [|done].
  intros Hcl. apply (proj1 (Forall_forall _ _) Hlt) in Hcl. lia.
Qed.

(** *** Boolean masks: [a == v], [np.where], [a[mask]] *)

Lemma filter_ext_in {A} (P1 P2 : A → Prop)
    `{!∀ x, Decision (P1 x), !∀ x, Decision (P2 x)} (l : list A) :
  (∀ x, x ∈ l → P1 x ↔ P2 x) → filter P1 l = filter P2 l.
Proof.
  induction l as [|x l IH]; intros Hext; [done|].
  rewrite !filter_cons. rewrite IH by (intros; apply Hext; set_solver).
  destruct (decide (P1 x)) as [H1|H1], (decide (P2 x)) as [H2|H2]; try done.
  - destruct H2. apply Hext; [set_solver | done].
  - destruct H1. apply Hext; [set_solver | done].
Qed.

Lemma where_from_filter mask : ∀ s,
  Np.where_from s mask =
  filter (λ i, mask !! (i - s)%nat = Some true) (seq s (length mask)).
Proof.
  induction mask as [|b mask IH]; intros s; [done|].
  simpl. rewrite filter_cons, Nat.sub_diag. simpl.
  rewrite (filter_ext_in _ (λ i, mask !! (i - S s)%nat = Some true)).
  - rewrite <- IH. destruct b; [by rewrite decide_True | by rewrite decide_False].
  - intros i [Hi _]%elem_of_seq.
    replace (i - s)%nat with (S (i - S s)) by lia. done.
Qed.

Lemma where0_eq_scalar a v : Np.where0 (Np.eq_scalar a v) = members a v.
Proof.
  unfold Np.where0, members, Np.eq_scalar.
  rewrite where_from_filter, length_fmap. apply filter_ext_in.
  intros i _. rewrite Nat.sub_0_r, list_lookup_fmap.
  destruct (a !! i) as [x|]; simpl; [|done].
  destruct (Z.eqb_spec x v); split; congruence.
Qed.

Lemma elem_of_members a v i : i ∈ members a v ↔ a !! i = Some v.
Proof.
  unfold members. rewrite list_elem_of_filter, elem_of_seq.
  split; [by intros [? _]|]. intros Hi. split; [done|].
  apply lookup_lt_Some in Hi. lia.
Qed.

Lemma members_nonempty a v : v ∈ a → members a v ≠ [].
Proof.
  intros (i & Hi)%list_elem_of_lookup Hnil.
  apply elem_of_members in Hi. rewrite Hnil in Hi. set_solver.
Qed.

Lemma members_empty a v : v ∉ a → members a v = [].
Proof.
  intros Hv. destruct (members a v) as [|i l] eqn:E; [done|].
  destruct Hv. apply list_elem_of_lookup. exists i.
  apply elem_of_members. rewrite E. set_solver.
Qed.

Lemma members_sorted a v : StronglySorted lt (members a v).
Proof.
  unfold members. generalize 0%nat as s. generalize (length a) as n.
  induction n as [|n IH]; intros s; [constructor|].
  simpl. rewrite filter_cons. destruct (decide _); [|apply IH].
  constructor; [apply IH|]. apply Forall_forall.
  intros i [_ [Hi _]%elem_of_seq]%list_elem_of_filter. lia.
Qed.

Lemma compress_where_from {A} mask : ∀ (pre xs : list A),
  length mask = length xs →
  Forall2 (λ i x, (pre ++ xs) !! i = Some x)
          (Np.where_from (length pre) mask) (Np.compress mask xs).
Proof.
  induction mask as [|b mask IH]; intros pre [|x xs] Hlen; simplify_eq/=;
    [constructor|].
  assert (Forall2 (λ i y, (pre ++ x :: xs) !! i = Some y)
            (Np.where_from (S (length pre)) mask) (Np.compress mask xs)) as Htl.
  { specialize (IH (pre ++ [x]) xs Hlen).
    rewrite length_app, <- app_assoc in IH. simpl in IH.
    by rewrite Nat.add_1_r in IH. }
  destruct b; [|done]. constructor; [|done].
  by rewrite lookup_app_r, Nat.sub_diag.
Qed.

(** [xs[a == v]] lists [xs[i]] for the members [i] of [v], in order. *)
Lemma bool_index_members {A} (xs : list A) a v :
  length xs = length a →
  ∃ ys, Np.bool_index xs (Np.eq_scalar a v) = Ok ys ∧
        Forall2 (λ i y, xs !! i = Some y) (members a v) ys.
Proof.
  intros Hlen. unfold Np.bool_index.
  assert (length (Np.eq_scalar a v) = length xs) as Hmask.
  { unfold Np.eq_scalar. by rewrite length_fmap. }
  rewrite decide_True by done. eexists. split; [done|].
  rewrite <- where0_eq_scalar. by apply (compress_where_from _ []).
Qed.

Lemma bool_index_Ok {A} (xs : list A) mask ys :
  Np.bool_index xs mask = Ok ys → length mask = length xs.
Proof. unfold Np.bool_index. by case_decide. Qed.

Lemma take_Ok {A} (a : list A) idx rows :
  Np.take a idx = Ok rows ↔ Forall2 (λ i x, a !! i = Some x) idx rows.
Proof.
  unfold Np.take. rewrite py_for_Ok.
  split; intros H; (eapply Forall2_impl; [exact H|]); intros i x; simpl;
    destruct (a !! i); simpl; congruence.
Qed.

Lemma take_total {A} (a : list A) idx :
  Forall (λ i, (i < length a)%nat) idx → ∃ rows, Np.take a idx = Ok rows.
Proof.
  intros Hidx. apply py_for_total. eapply Forall_impl; [exact Hidx|].
  intros i [x Hx]%lookup_lt_is_Some_2. exists x. simpl. by rewrite Hx.
Qed.

Lemma StronglySorted_lookup_lt {A} (R : relation A) l i j x y :
  StronglySorted R l → l !! i = Some x → l !! j = Some y → (i < j)%nat → R x y.
Proof.
  intros Hl. revert i j. induction Hl as [|z l Hl IH Hz]; intros i j Hi Hj Hij.
  - done.
  - destruct j as [|j]; [lia|]. simpl in Hj. destruct i as [|i]; simpl in Hi.
    + injection Hi as ->. eapply (proj1 (Forall_forall _ _) Hz).
      by eapply list_elem_of_lookup_2.
    + eapply IH; [done..|lia].
Qed.

(** *** [mean(axis=0)] *)

Lemma foldl_vadd_lookup rs : ∀ r d x,
  r !! d = Some x → Forall (λ row, (d < length row)%nat) rs →
  ∃ s, foldl Np.vadd r rs !! d = Some s ∧ (s == x + column_sum d rs)%Q.
Proof.
  induction rs as [|row rs IH]; intros r d x Hx Hall; simpl.
  - exists x. split; [done|]. ring.
  - apply Forall_cons in Hall as [[y Hy]%lookup_lt_is_Some_2 Hall].
    destruct (IH (Np.vadd r row) d (x + y)%Q) as (s & Hs & Heq); [|done|].
    + unfold Np.vadd. by rewrite lookup_zip_with, Hx, Hy.
    + exists s. split; [done|]. rewrite Heq, Hy. simpl. ring.
Qed.

Lemma length_foldl_vadd D rs : ∀ r,
  length r = D → Forall (λ row, length row = D) rs →
  length (foldl Np.vadd r rs) = D.
Proof.
  induction rs as [|row rs IH]; intros r Hr Hall; [done|].
  apply Forall_cons in Hall as [Hrow Hall]. simpl. apply IH; [|done].
  unfold Np.vadd. rewrite length_zip_with. lia.
Qed.

(** The mean over axis 0 of a non-empty rectangular selection is, in each
    coordinate, the sum of the column divided by the number of rows. *)
Lemma mean_axis0_spec n D (rows : list (list Q)) :
  rectangular n D rows → rows ≠ [] →
  length (Np.mean_axis0 rows) = D ∧
  ∀ d, (d < D)%nat →
    ∃ x, Np.mean_axis0 rows !! d = Some x ∧
         (x == column_sum d rows / inject_Z (Z.of_nat n))%Q.
Proof.
  intros [<- Hrows] Hne. destruct rows as [|r rs]; [done|].
  apply Forall_cons in Hrows as [Hr Hrs]. unfold Np.mean_axis0. simpl Np.sum_axis0.
  split.
  - rewrite length_fmap. by apply length_foldl_vadd.
  - intros d Hd. destruct (lookup_lt_is_Some_2 r d) as [x Hx]; [lia|].
    destruct (foldl_vadd_lookup rs r d x Hx) as (s & Hs & Heq).
    { eapply Forall_impl; [exact Hrs|]. simpl. lia. }
    eexists. rewrite list_lookup_fmap, Hs. simpl. split; [done|].
    rewrite Heq, Hx. simpl. reflexivity.
Qed.

Lemma column_sum_rows data idxs rows d :
  Forall2 (λ i row, data !! i = Some row) idxs rows →
  column_sum d rows = feature_sum data d idxs.
Proof.
  induction 1 as [|i row idxs rows Hi _ IH]; [done|].
  simpl. unfold entry. rewrite Hi. simpl. by rewrite IH.
Qed.

(** *** Squared Euclidean distance *)

Lemma foldl_Qplus_acc (l : list Q) : ∀ a,
  (foldl Qplus a l == a + foldl Qplus 0 l)%Q.
Proof.
  induction l as [|x l IH]; intros a; simpl; [ring|].
  rewrite (IH (a + x)%Q), (IH (0 + x)%Q). ring.
Qed.

(** [sqdist] is the sum over the coordinates of the squared differences. *)
Lemma sqdist_cons x row p v :
  (Np.sqdist (x :: row) (p :: v) == (x - p) * (x - p) + Np.sqdist row v)%Q.
Proof.
  unfold Np.sqdist. simpl. rewrite foldl_Qplus_acc. ring.
Qed.

Lemma sqdist_nonneg row : ∀ v, (0 <= Np.sqdist row v)%Q.
Proof.
  induction row as [|x row IH]; intros [|p v]; try (by vm_compute).
  rewrite sqdist_cons. specialize (IH v).
  assert (0 <= (x - p) * (x - p))%Q; [|lra].
  destruct (Qlt_le_dec (x - p) 0).
  - assert ((x - p) * (x - p) == (- (x - p)) * (- (x - p)))%Q as -> by ring.
    apply Qmult_le_0_compat; lra.
  - by apply Qmult_le_0_compat.
Qed.

(** *** The nearest sample of a selection *)

Lemma nearest_nil data proto : nearest data proto [] = Raise ValueError.
Proof. reflexivity. Qed.


Lemma nearest_total data proto sel :
  sel ≠ [] → Forall (λ i, (i < length data)%nat) sel →
  ∃ i, nearest data proto sel = Ok i.
Proof.
  intros Hne Hsel. destruct (take_total data sel Hsel) as [rows Hrows].
  unfold nearest. rewrite Hrows. simpl.
  assert (length rows = length sel) as Hlen by (by eapply py_for_length).
  destruct (argmin_spec (Np.sqdists rows proto)) as (k & m & Hk & Hm & _).
  { unfold Np.sqdists. destruct rows; [by destruct sel | done]. }
  rewrite Hk. simpl. apply lookup_lt_Some in Hm.
  unfold Np.sqdists in Hm. rewrite length_fmap, Hlen in Hm.
  apply lookup_lt_is_Some_2 in Hm as [i Hi]. rewrite Hi. by exists i.
Qed.


(** ** The region verdict of a cluster *)

Lemma in_range_cases r : in_range r → r = -1 ∨ r = 0 ∨ r = 1.
Proof. unfold in_range. set_solver. Qed.

Lemma take_int_eye3 (rs : list Z) :
  Forall in_range rs →
  Np.take_int Np.eye3 ((λ r : Z, r + 1) <$> rs) = Ok (onehot <$> rs).
Proof.
  intros Hrs. unfold Np.take_int. apply py_for_Ok, Forall2_fmap.
  apply Forall_Forall2_diag. eapply Forall_impl; [exact Hrs|].
  by intros r [-> | [-> | ->]]%in_range_cases.
Qed.

Lemma column_sum_onehot k b (rs : list Z) :
  [-1; 0; 1] !! k = Some b →
  (column_sum k (onehot <$> rs)
   == inject_Z (Z.of_nat (length (filter (λ x : Z, x = b) rs))))%Q.
Proof.
  intros Hk. induction rs as [|r rs IH]; [reflexivity|].
  rewrite fmap_cons. simpl column_sum. rewrite IH. unfold onehot at 1.
  rewrite list_lookup_fmap, Hk. simpl. rewrite filter_cons.
  destruct (Z.eqb_spec r b) as [->|Hne].
  - rewrite decide_True by done. simpl length. rewrite Q_of_nat_S.
    unfold Np.bool_to_float. ring.
  - rewrite decide_False by done. unfold Np.bool_to_float. ring.
Qed.

(** The region distribution of a non-empty list of region values holds
    the three bin averages, in the order [-1, 0, +1]. *)
Lemma region_distribution_spec (rs : list Z) :
  rs ≠ [] → Forall in_range rs →
  ∃ dist, region_distribution rs = Ok dist ∧ length dist = 3%nat ∧
    ∀ k b, [-1; 0; 1] !! k = Some b →
      ∃ x, dist !! k = Some x ∧ (x == bin_average b rs)%Q.
Proof.
  intros Hne Hrs. unfold region_distribution. rewrite (take_int_eye3 rs Hrs). simpl.
  eexists. split; [done|].
  destruct (mean_axis0_spec (length rs) 3 (onehot <$> rs)) as [Hlen Hmean].
  { split; [by rewrite length_fmap|]. by apply Forall_fmap, Forall_forall. }
  { by destruct rs. }
  split; [done|]. intros k b Hk.
  destruct (Hmean k) as (x & Hx & Heq); [by apply lookup_lt_Some in Hk|].
  exists x. split; [done|]. rewrite Heq, (column_sum_onehot k b rs Hk).
  unfold bin_average. reflexivity.
Qed.

(** The verdict is the first bin, in the order [-1, 0, +1], of greatest
    average. *)
Lemma cluster_verdict_spec (rs : list Z) :
  rs ≠ [] → Forall in_range rs →
  ∃ dist v, region_distribution rs = Ok dist ∧ region_verdict dist = Ok v ∧
    in_range v ∧
    ∀ w, in_range w →
      (bin_average w rs <= bin_average v rs)%Q ∧
      (w < v → (bin_average w rs < bin_average v rs)%Q).
Proof.
  intros Hne Hrs.
  destruct (region_distribution_spec rs Hne Hrs) as (dist & Hdist & Hlen & Hbins).
  destruct (argmax_spec dist) as (k & m & Hk & Hm & Hmax); [by destruct dist|].
  assert (k < 3)%nat as Hk3 by (rewrite <- Hlen; by eapply lookup_lt_Some).
  destruct (lookup_lt_is_Some_2 [-1; 0; 1] k) as [v Hv]; [done|].
  exists dist, v. split; [done|]. unfold region_verdict. rewrite Hk. simpl.
  rewrite Hv. simpl. split; [done|].
  split; [by eapply list_elem_of_lookup_2|].
  destruct (Hbins k v Hv) as (m' & Hm' & Hmv).
  assert (m' = m) as -> by congruence.
  intros w (j & Hj)%list_elem_of_lookup.
  destruct (Hbins j w Hj) as (x & Hx & Hxw).
  destruct (Hmax j x Hx) as [Hle Hlt]. split; [lra|].
  intros Hwv. assert (j < k)%nat as Hjk.
  { destruct j as [|[|[|j]]], k as [|[|[|k]]]; simplify_eq/=; lia. }
  specialize (Hlt Hjk). lra.
Qed.

Lemma length_filter_regions (rs : list Z) :
  Forall in_range rs →
  length rs = (length (filter (λ x : Z, x = (-1)%Z) rs)
               + length (filter (λ x : Z, x = 0%Z) rs)
               + length (filter (λ x : Z, x = 1%Z) rs))%nat.
Proof.
  induction 1 as [|r rs Hr _ IH]; [done|].
  rewrite !filter_cons. simpl. rewrite IH.
  destruct (in_range_cases r Hr) as [-> | [-> | ->]]; simpl; lia.
Qed.

(** A tie between [-1] and [+1] without any [0] goes to [-1]. *)
Lemma verdict_tie (rs : list Z) v :
  rs ≠ [] → Forall in_range rs → in_range v →
  (∀ w, in_range w →
      (bin_average w rs <= bin_average v rs)%Q ∧
      (w < v → (bin_average w rs < bin_average v rs)%Q)) →
  length (filter (λ x : Z, x = -1) rs) = length (filter (λ x : Z, x = 1) rs) →
  length (filter (λ x : Z, x = 0) rs) = O →
  v = -1.
Proof.
  intros Hne Hrs Hv Hmax Hties Hzero.
  pose proof (length_filter_regions rs Hrs) as Hlen.
  assert (0 < length rs)%nat as Hpos by (destruct rs; [done | simpl; lia]).
  assert (0 < bin_average (-1) rs)%Q as Hminus.
  { unfold bin_average. apply Qlt_shift_div_l; [apply Q_of_nat_pos; lia|].
    rewrite Qmult_0_l. change 0%Q with (inject_Z 0). rewrite <- Zlt_Qlt. lia. }
  assert (bin_average 0 rs == 0)%Q as Hz.
  { unfold bin_average. rewrite Hzero. simpl. unfold Qdiv. ring. }
  assert (bin_average 1 rs = bin_average (-1) rs) as Hone.
  { unfold bin_average. by rewrite Hties. }
  destruct (in_range_cases v Hv) as [-> | [-> | ->]]; [done|..].
  - destruct (Hmax (-1)) as [Hle _]; [in_range_solver|]. lra.
  - destruct (Hmax (-1)) as [_ Hlt]; [in_range_solver|].
    specialize (Hlt ltac:(lia)). rewrite Hone in Hlt. lra.
Qed.


(** ** The loop over the clusters *)

Section Explain.

Variables (proj : list (list Q)) (regions : list Z)
          (X_subset : list (list Q)) (cluster : list Z).

Lemma explain_cluster_Ok cluster_id cf :
  explain_cluster proj regions X_subset cluster cluster_id = Ok cf →
  ∃ member_regions member_proj member_X,
    Np.bool_index regions (Np.eq_scalar cluster cluster_id) = Ok member_regions ∧
    region_distribution member_regions = Ok (region_dist cf) ∧
    region_verdict (region_dist cf) = Ok (region cf) ∧
    Np.bool_index proj (Np.eq_scalar cluster cluster_id) = Ok member_proj ∧
    proto_rfk cf = Np.mean_axis0 member_proj ∧
    Np.bool_index X_subset (Np.eq_scalar cluster cluster_id) = Ok member_X ∧
    proto_euc cf = Np.mean_axis0 member_X ∧
    py_fold (sample_step proj X_subset regions (proto_rfk cf) (proto_euc cf))
            (∅, ∅) [-1; 0; 1] = Ok (sample_euc cf, sample_rfk cf).
Proof.
  unfold explain_cluster. intros H.
  apply py_bind_Ok in H as (mr & Hmr & H).
  apply py_bind_Ok in H as (dist & Hdist & H).
  apply py_bind_Ok in H as (v & Hv & H).
  apply py_bind_Ok in H as (mp & Hmp & H).
  apply py_bind_Ok in H as (mx & Hmx & H).
  apply py_bind_Ok in H as ([de dr] & Hd & H).
  injection H as <-. simpl. by exists mr, mp, mx.
Qed.

Lemma sample_step_Ok proj_proto X_proto d r d' :
  sample_step proj X_subset regions proj_proto X_proto d r = Ok d' →
  ∃ i_euc i_rfk,
    nearest X_subset X_proto (members regions r) = Ok i_euc ∧
    nearest proj proj_proto (members regions r) = Ok i_rfk ∧
    d' = (<[r := i_euc]> d.1, <[r := i_rfk]> d.2).
Proof.
  unfold sample_step. rewrite where0_eq_scalar. intros H.
  apply py_bind_Ok in H as (ie & Hie & H).
  apply py_bind_Ok in H as (ir & Hir & H).
  injection H as <-. by exists ie, ir.
Qed.

(** After the inner loop both dicts have exactly the keys -1, 0 and 1, each
    bound to the nearest sample of that region. *)
Lemma sample_loop_Ok proj_proto X_proto d :
  py_fold (sample_step proj X_subset regions proj_proto X_proto) (∅, ∅) [-1; 0; 1] = Ok d →
  (∀ r, in_range r →
     ∃ i_euc i_rfk,
       d.1 !! r = Some i_euc ∧ d.2 !! r = Some i_rfk ∧
       nearest X_subset X_proto (members regions r) = Ok i_euc ∧
       nearest proj proj_proto (members regions r) = Ok i_rfk) ∧
  (∀ r, ¬ in_range r → d.1 !! r = None ∧ d.2 !! r = None).
Proof.
  simpl. intros H.
  apply py_bind_Ok in H as (d1 & (e1 & r1 & He1 & Hr1 & ->)%sample_step_Ok & H).
  apply py_bind_Ok in H as (d2 & (e2 & r2 & He2 & Hr2 & ->)%sample_step_Ok & H).
  apply py_bind_Ok in H as (d3 & (e3 & r3 & He3 & Hr3 & ->)%sample_step_Ok & H).
  injection H as <-. simpl. split.
  - intros r [-> | [-> | ->]]%in_range_cases; eexists _, _; by simplify_map_eq.
  - intros r Hr. unfold in_range in Hr.
    rewrite !lookup_insert_ne, !lookup_empty; [done|set_solver..].
Qed.

Section Shapes.

Variable N : nat.
Hypothesis cluster_shape : length cluster = N.
Hypothesis regions_shape : length regions = N.
Hypothesis proj_shape : length proj = N.
Hypothesis X_shape : length X_subset = N.
Hypothesis regions_range : Forall in_range regions.

(** The part of the loop body before the inner loop cannot raise. *)
Lemma explain_cluster_prefix cluster_id :
  cluster_id ∈ cluster →
  ∃ dist verdict proj_proto X_proto,
    explain_cluster proj regions X_subset cluster cluster_id =
      d ← py_fold (sample_step proj X_subset regions proj_proto X_proto) (∅, ∅) [-1; 0; 1];
      Ok {| region_dist := dist; region := verdict;
            sample_euc := d.1; sample_rfk := d.2;
            proto_rfk := proj_proto; proto_euc := X_proto |}.
Proof.
  intros Hid. unfold explain_cluster.
  destruct (bool_index_members regions cluster cluster_id) as (mr & -> & Hmr); [congruence|].
  destruct (bool_index_members proj cluster cluster_id) as (mp & -> & Hmp); [congruence|].
  destruct (bool_index_members X_subset cluster cluster_id) as (mx & -> & Hmx); [congruence|].
  simpl.
  destruct (cluster_verdict_spec mr) as (dist & v & -> & Hv & _).
  - apply members_nonempty in Hid. apply Forall2_length in Hmr.
    destruct mr; [by destruct (members cluster cluster_id) | done].
  - apply Forall_forall. intros y (i & Hi)%list_elem_of_lookup.
    destruct (Forall2_lookup_r _ _ _ _ _ Hmr Hi) as (j & _ & Hy).
    eapply (proj1 (Forall_forall _ _) regions_range).
    by eapply list_elem_of_lookup_2.
  - simpl. rewrite Hv. simpl. by eexists _, _, _, _.
Qed.

Lemma nearest_region_total (data : list (list Q)) proto r :
  length data = N → r ∈ regions →
  ∃ i, nearest data proto (members regions r) = Ok i.
Proof.
  intros Hdata Hr. apply nearest_total; [by apply members_nonempty|].
  apply Forall_forall. intros i Hi%elem_of_members%lookup_lt_Some. lia.
Qed.

Lemma sample_loop_total proj_proto X_proto :
  (∀ r, in_range r → r ∈ regions) →
  ∃ d, py_fold (sample_step proj X_subset regions proj_proto X_proto) (∅, ∅) [-1; 0; 1] = Ok d.
Proof.
  intros Hall. simpl. unfold sample_step. rewrite !where0_eq_scalar.
  assert (∀ r, in_range r → ∃ ie ir,
            nearest X_subset X_proto (members regions r) = Ok ie ∧
            nearest proj proj_proto (members regions r) = Ok ir) as Hnear.
  { intros r Hr%Hall.
    destruct (nearest_region_total X_subset X_proto r X_shape Hr) as [ie Hie].
    destruct (nearest_region_total proj proj_proto r proj_shape Hr) as [ir Hir].
    by exists ie, ir. }
  destruct (Hnear (-1)) as (e1 & r1 & -> & ->); [in_range_solver|].
  destruct (Hnear 0) as (e2 & r2 & -> & ->); [in_range_solver|].
  destruct (Hnear 1) as (e3 & r3 & -> & ->); [in_range_solver|].
  simpl. by eexists.
Qed.

(** When a region value is absent from the subset, the inner loop raises
    the [ValueError] of [np.argmin] on an empty selection. *)
Lemma sample_loop_raises proj_proto X_proto r :
  in_range r → r ∉ regions →
  py_fold (sample_step proj X_subset regions proj_proto X_proto) (∅, ∅) [-1; 0; 1]
  = Raise ValueError.
Proof.
  intros Hr Hmiss. simpl. unfold sample_step. rewrite !where0_eq_scalar.
  assert (∀ r', r' ∈ regions → ∃ ie ir,
            nearest X_subset X_proto (members regions r') = Ok ie ∧
            nearest proj proj_proto (members regions r') = Ok ir) as Hnear.
  { intros r' Hr'.
    destruct (nearest_region_total X_subset X_proto r' X_shape Hr') as [ie Hie].
    destruct (nearest_region_total proj proj_proto r' proj_shape Hr') as [ir Hir].
    by exists ie, ir. }
  assert (∀ r', r' ∉ regions →
            nearest X_subset X_proto (members regions r') = Raise ValueError) as Hnone.
  { intros r' Hr'. by rewrite members_empty. }
  destruct (decide (-1 ∈ regions)) as [H1|H1]; [|by rewrite (Hnone _ H1)].
  destruct (Hnear _ H1) as (e1 & r1 & -> & ->). simpl.
  destruct (decide (0 ∈ regions)) as [H2|H2]; [|by rewrite (Hnone _ H2)].
  destruct (Hnear _ H2) as (e2 & r2 & -> & ->). simpl.
  destruct (decide (1 ∈ regions)) as [H3|H3]; [|by rewrite (Hnone _ H3)].
  by destruct (in_range_cases r Hr) as [-> | [-> | ->]].
Qed.

Lemma explain_cluster_total cluster_id :
  (∀ r, in_range r → r ∈ regions) → cluster_id ∈ cluster →
  ∃ cf, explain_cluster proj regions X_subset cluster cluster_id = Ok cf.
Proof.
  intros Hall Hid.
  destruct (explain_cluster_prefix cluster_id Hid) as (dist & v & pp & xp & ->).
  destruct (sample_loop_total pp xp Hall) as [d ->]. simpl. by eexists.
Qed.

(** With all three region values present, [explain] returns one record
    per element of [np.unique(cluster)]. *)
Lemma explain_total :
  (∀ r, in_range r → r ∈ regions) →
  ∃ cfs, explain proj regions X_subset cluster = Ok cfs ∧
    Forall2 (λ cluster_id cf,
               explain_cluster proj regions X_subset cluster cluster_id = Ok cf)
            (Np.unique cluster) cfs.
Proof.
  intros Hall. unfold explain.
  destruct (py_for_total (explain_cluster proj regions X_subset cluster) (Np.unique cluster))
    as [cfs Hcfs].
  - apply Forall_forall. intros id Hid. rewrite elem_of_unique in Hid.
    exact (explain_cluster_total id Hall Hid).
  - exists cfs. split; [done|]. by apply py_for_Ok.
Qed.

Lemma explain_raises r :
  cluster ≠ [] → in_range r → r ∉ regions →
  explain proj regions X_subset cluster = Raise ValueError.
Proof.
  intros Hne Hr Hmiss. unfold explain.
  destruct (Np.unique cluster) as [|id ids] eqn:Hu.
  - destruct cluster as [|c cl]; [done|].
    assert (c ∈ Np.unique (c :: cl)) as Hc by (apply elem_of_unique; set_solver).
    rewrite Hu in Hc. set_solver.
  - assert (id ∈ cluster) as Hid by (apply elem_of_unique; rewrite Hu; set_solver).
    simpl. destruct (explain_cluster_prefix id Hid) as (dist & v & pp & xp & ->).
    by rewrite (sample_loop_raises pp xp r Hr Hmiss).
Qed.

End Shapes.

(** [xs[cluster == cluster_id]], when it is defined, lists [xs[i]] for the
    members [i] of the cluster. *)
Lemma bool_index_cluster {A} (xs : list A) cluster_id ys :
  Np.bool_index xs (Np.eq_scalar cluster cluster_id) = Ok ys →
  length xs = length cluster ∧
  Forall2 (λ i y, xs !! i = Some y) (members cluster cluster_id) ys.
Proof.
  intros Hys. pose proof (bool_index_Ok _ _ _ Hys) as Hlen.
  unfold Np.eq_scalar in Hlen. rewrite length_fmap in Hlen.
  split; [done|].
  destruct (bool_index_members xs cluster cluster_id) as (ys' & Hys' & HF); [done|].
  congruence.
Qed.

Lemma filter_members_values (idxs : list nat) (rs : list Z) r :
  Forall2 (λ i y, regions !! i = Some y) idxs rs →
  length (filter (λ x : Z, x = r) rs)
  = length (filter (λ i : nat, regions !! i = Some r) idxs).
Proof.
  induction 1 as [|i y idxs rs Hi _ IH]; [done|].
  rewrite !filter_cons, Hi.
  destruct (decide (y = r)) as [->|Hne].
  - rewrite decide_True by done. simpl. by rewrite IH.
  - rewrite decide_False by congruence. done.
Qed.


(** The verdict computed from the regions of the members of a cluster. *)
Lemma members_verdict cluster_id (member_regions : list Z) :
  Forall in_range regions →
  member_regions ≠ [] →
  Forall2 (λ i y, regions !! i = Some y) (members cluster cluster_id) member_regions →
  let M := members cluster cluster_id in
  ∃ dist verdict,
    region_distribution member_regions = Ok dist ∧
    region_verdict dist = Ok verdict ∧
    in_range verdict ∧
    (∀ w, in_range w →
       (region_share regions M w <= region_share regions M verdict)%Q ∧
       (w < verdict →
          (region_share regions M w < region_share regions M verdict)%Q)) ∧
    (length (filter (λ i : nat, regions !! i = Some (-1)) M)
       = length (filter (λ i : nat, regions !! i = Some 1) M) →
     length (filter (λ i : nat, regions !! i = Some 0) M) = O →
     verdict = -1).
Proof.
  intros Hrange Hne Hmr M. fold M in Hmr.
  assert (Forall in_range member_regions) as Hmr_range.
  { apply Forall_forall. intros y (k & Hk)%list_elem_of_lookup.
    destruct (Forall2_lookup_r _ _ _ _ _ Hmr Hk) as (i & _ & Hy).
    eapply (proj1 (Forall_forall _ _) Hrange).
    by eapply list_elem_of_lookup_2. }
  destruct (cluster_verdict_spec member_regions Hne Hmr_range)
    as (dist & v & Hdist & Hv & Hvr & Hmax).
  exists dist, v.
  assert (∀ w, bin_average w member_regions = region_share regions M w) as Hshare.
  { intros w. unfold bin_average, region_share.
    by rewrite (filter_members_values M member_regions w Hmr), (Forall2_length _ _ _ Hmr). }
  split; [done|]. split; [done|]. split; [done|]. split.
  - intros w Hw. rewrite <- !Hshare. by apply Hmax.
  - intros Hties Hzero. apply (verdict_tie member_regions); try done.
    + by rewrite !(filter_members_values M member_regions _ Hmr).
    + by rewrite (filter_members_values M member_regions _ Hmr).
Qed.



End Explain.

(** ** The specification of [explain] *)

Section ExplainSpec.

Variables (proj : list (list Q)) (regions : list Z)
          (X_subset : list (list Q)) (cluster : list Z).

(** C3: the region verdict of a non-empty cluster is the value of
    {-1, 0, +1} whose one-hot bin has the greatest average over the
    members, the first bin in the order [-1, 0, +1] winning ties; with as
    many -1 as +1 members and no 0 member the verdict is -1. *)
Theorem cluster_region_verdict cluster_id :
  Forall in_range regions →
  length regions = length cluster →
  cluster_id ∈ cluster →
  let M := members cluster cluster_id in
  ∃ member_regions dist verdict,
    Np.bool_index regions (Np.eq_scalar cluster cluster_id) = Ok member_regions ∧
    region_distribution member_regions = Ok dist ∧
    region_verdict dist = Ok verdict ∧
    in_range verdict ∧
    (∀ w, in_range w →
       (region_share regions M w <= region_share regions M verdict)%Q ∧
       (w < verdict →
          (region_share regions M w < region_share regions M verdict)%Q)) ∧
    (length (filter (λ i : nat, regions !! i = Some (-1)) M)
       = length (filter (λ i : nat, regions !! i = Some 1) M) →
     length (filter (λ i : nat, regions !! i = Some 0) M) = O →
     verdict = -1) ∧
    (∀ cf, explain_cluster proj regions X_subset cluster cluster_id = Ok cf →
           region cf = verdict).
Proof.
  intros Hrange Hlen Hid M.
  destruct (bool_index_members regions cluster cluster_id Hlen) as (mr & Hmr & HF).
  assert (mr ≠ []) as Hne.
  { intros ->. apply Forall2_nil_inv_r in HF. by apply (members_nonempty cluster cluster_id). }
  destruct (members_verdict regions cluster cluster_id mr Hrange Hne HF)
    as (dist & v & Hdist & Hv & Hvr & Hmax & Htie).
  exists mr, dist, v. repeat (split; [done|]).
  intros cf (mr' & _ & _ & Hmr' & Hdist' & Hv' & _)%explain_cluster_Ok. congruence.
Qed.






(** C8: resolving a region value that no sample of the subset carries
    fails with the [ValueError] of [np.argmin] over an empty selection,
    and so does [explain] as soon as it has a cluster to process; on
    region data holding only 0 the lookup for region +1 raises it. *)
Theorem explain_no_candidate N r :
  length cluster = N → length regions = N →
  length proj = N → length X_subset = N →
  Forall in_range regions →
  in_range r → r ∉ regions →
  (∀ proj_proto X_proto d,
     sample_step proj X_subset regions proj_proto X_proto d r = Raise ValueError) ∧
  (cluster ≠ [] → explain proj regions X_subset cluster = Raise ValueError) ∧
  (∀ proj_proto X_proto d,
     sample_step ex_proj ex_X [0; 0; 0; 0; 0] proj_proto X_proto d 1 = Raise ValueError) ∧
  explain ex_proj [0; 0; 0; 0; 0] ex_X ex_cluster = Raise ValueError.
Proof.
  intros Hc Hr Hp HX Hrange Hin Hmiss. split; [|split; [|split]].
  - intros pp xp d. unfold sample_step.
    by rewrite where0_eq_scalar, members_empty.
  - intros Hne. by eapply explain_raises.
  - done.
  - by vm_compute.
Qed.

(** C9, as claimed, fails: cluster 1 of the three clusters 0..2 has no
    member, and [explain] returns the records of clusters 0 and 2. *)
Lemma explain_with_empty_cluster_returns :
  (0 <= 1 < 3) ∧ 1 ∉ ex_cluster ∧ members ex_cluster 1 = [] ∧
  Forall (λ c, 0 <= c < 3) ex_cluster ∧
  ∃ cf0 cf2, explain ex_proj ex_regions ex_X ex_cluster = Ok [cf0; cf2].
Proof.
  split; [lia|]. split; [unfold ex_cluster; set_solver|]. split; [done|].
  split; [repeat constructor; lia|]. eexists _, _. by vm_compute.
Qed.

(** C9, amended: a cluster id without members is not visited, so nothing
    is averaged over an empty selection and no error arises from it.  The
    loop runs over the ids present in the assignment, each of which has a
    member; on well-shaped input the only failure of [explain] is the
    [ValueError] for a region value absent from the subset. *)
Theorem explain_skips_empty_clusters N :
  length cluster = N → length regions = N →
  length proj = N → length X_subset = N →
  Forall in_range regions →
  (∀ c, c ∉ cluster → c ∉ Np.unique cluster) ∧
  (∀ c, c ∈ Np.unique cluster →
     members cluster c ≠ [] ∧
     ∃ member_regions member_proj member_X,
       Np.bool_index regions (Np.eq_scalar cluster c) = Ok member_regions ∧
       Np.bool_index proj (Np.eq_scalar cluster c) = Ok member_proj ∧
       Np.bool_index X_subset (Np.eq_scalar cluster c) = Ok member_X ∧
       member_regions ≠ [] ∧ member_proj ≠ [] ∧ member_X ≠ []) ∧
  ((∀ r, in_range r → r ∈ regions) →
     ∃ cfs, explain proj regions X_subset cluster = Ok cfs) ∧
  (∀ e, explain proj regions X_subset cluster = Raise e →
     e = ValueError ∧ cluster ≠ [] ∧ ∃ r, in_range r ∧ r ∉ regions).
Proof.
  intros Hc Hr Hp HX Hrange. split; [|split; [|split]].
  - intros c Hc'. by rewrite elem_of_unique.
  - intros c Hin. rewrite elem_of_unique in Hin.
    pose proof (members_nonempty cluster c Hin) as HM. split; [done|].
    destruct (bool_index_members regions cluster c) as (mr & Hmr & HFr); [congruence|].
    destruct (bool_index_members proj cluster c) as (mp & Hmp & HFp); [congruence|].
    destruct (bool_index_members X_subset cluster c) as (mx & Hmx & HFx); [congruence|].
    exists mr, mp, mx. repeat (split; [done|]).
    split; [|split]; intros ->.
    + by apply Forall2_nil_inv_r in HFr.
    + by apply Forall2_nil_inv_r in HFp.
    + by apply Forall2_nil_inv_r in HFx.
  - intros Hall.
    destruct (explain_total proj regions X_subset cluster N) as (cfs & Hcfs & _);
      try done. by exists cfs.
  - intros e He.
    assert (cluster ≠ []) as Hne.
    { intros ->. discriminate He. }
    assert (∃ r, in_range r ∧ r ∉ regions) as (r & Hin & Hmiss).
    { destruct (decide (-1 ∈ regions)) as [H1|H1];
        [|exists (-1); split; [in_range_solver | done]].
      destruct (decide (0 ∈ regions)) as [H2|H2];
        [|exists 0; split; [in_range_solver | done]].
      destruct (decide (1 ∈ regions)) as [H3|H3];
        [|exists 1; split; [in_range_solver | done]].
      destruct (explain_total proj regions X_subset cluster N) as (cfs & Hcfs & _);
        try done; [|congruence].
      by intros r [-> | [-> | ->]]%in_range_cases. }
    rewrite (explain_raises proj regions X_subset cluster N Hc Hr Hp HX Hrange r Hne Hin Hmiss)
      in He.
    split; [congruence|]. split; [done|]. by exists r.
Qed.

(** C10: [explain] produces one record per distinct cluster id present in
    the assignment, in ascending order of id; an id without members gets
    no record, so there can be fewer records than clusters (two records
    for the three clusters 0..2 of the example). *)
Theorem explain_one_record_per_cluster N :
  length cluster = N → length regions = N →
  length proj = N → length X_subset = N →
  Forall in_range regions →
  (∀ r, in_range r → r ∈ regions) →
  (∃ cfs, explain proj regions X_subset cluster = Ok cfs ∧
     Forall2 (λ cluster_id cf,
                explain_cluster proj regions X_subset cluster cluster_id = Ok cf)
             (Np.unique cluster) cfs ∧
     length cfs = size (list_to_set cluster : gset Z)) ∧
  StronglySorted Z.lt (Np.unique cluster) ∧
  (∀ c, c ∈ Np.unique cluster ↔ c ∈ cluster) ∧
  (Forall (λ c, 0 <= c < 3) ex_cluster ∧
   ∃ cf0 cf2, explain ex_proj ex_regions ex_X ex_cluster = Ok [cf0; cf2]).
Proof.
  intros Hc Hr Hp HX Hrange Hall. split; [|split; [|split]].
  - destruct (explain_total proj regions X_subset cluster N) as (cfs & Hcfs & HF);
      try done.
    exists cfs. split; [done|]. split; [done|].
    rewrite <- (Forall2_length _ _ _ HF).
    assert (list_to_set cluster = (list_to_set (Np.unique cluster) : gset Z)) as ->.
    { apply set_eq. intros c. by rewrite !elem_of_list_to_set, elem_of_unique. }
    symmetry. apply size_list_to_set, unique_NoDup.
  - apply unique_sorted.
  - apply elem_of_unique.
  - split; [repeat constructor; lia|]. eexists _, _. by vm_compute.
Qed.

End ExplainSpec.

(** ** The example subset *)

Lemma ex_regions_range : Forall in_range ex_regions.
Proof. repeat constructor; in_range_solver. Defined.

Lemma ex_regions_all : ∀ r, in_range r → r ∈ ex_regions.
Proof.
  intros r [-> | [-> | ->]]%in_range_cases; unfold ex_regions; set_solver.
Defined.



Lemma cluster_region_verdict_witness :
  let M := members ex_cluster 2 in
  Forall in_range ex_regions ∧
  length ex_regions = length ex_cluster ∧
  2 ∈ ex_cluster ∧
  ∃ member_regions dist verdict,
    Np.bool_index ex_regions (Np.eq_scalar ex_cluster 2) = Ok member_regions ∧
    region_distribution member_regions = Ok dist ∧
    region_verdict dist = Ok verdict ∧
    in_range verdict ∧
    (∀ w, in_range w →
       (region_share ex_regions M w <= region_share ex_regions M verdict)%Q ∧
       (w < verdict →
          (region_share ex_regions M w < region_share ex_regions M verdict)%Q)) ∧
    (length (filter (λ i : nat, ex_regions !! i = Some (-1)) M)
       = length (filter (λ i : nat, ex_regions !! i = Some 1) M) →
     length (filter (λ i : nat, ex_regions !! i = Some 0) M) = O →
     verdict = -1) ∧
    (∀ cf, explain_cluster ex_proj ex_regions ex_X ex_cluster 2 = Ok cf →
           region cf = verdict).
Proof.
  assert (2 ∈ ex_cluster) as Hin by (unfold ex_cluster; set_solver).
  split; [exact ex_regions_range|]. split; [reflexivity|]. split; [exact Hin|].
  exact (cluster_region_verdict ex_proj ex_regions ex_X ex_cluster 2
           ex_regions_range eq_refl Hin).
Defined.



Lemma explain_no_candidate_witness :
  let regions := [0; 0; 0; 0; 0] in
  length ex_cluster = 5%nat ∧ length regions = 5%nat ∧
  length ex_proj = 5%nat ∧ length ex_X = 5%nat ∧
  Forall in_range regions ∧ in_range 1 ∧ 1 ∉ regions ∧
  (∀ proj_proto X_proto d,
     sample_step ex_proj ex_X regions proj_proto X_proto d 1 = Raise ValueError) ∧
  (ex_cluster ≠ [] → explain ex_proj regions ex_X ex_cluster = Raise ValueError).
Proof.
  assert (Forall in_range [0; 0; 0; 0; 0]) as Hrange
    by (repeat constructor; in_range_solver).
  assert (in_range 1) as Hin by in_range_solver.
  assert (1 ∉ [0; 0; 0; 0; 0]) as Hmiss by set_solver.
  do 4 (split; [reflexivity|]). do 3 (split; [assumption|]).
  destruct (explain_no_candidate ex_proj [0; 0; 0; 0; 0] ex_X ex_cluster 5 1
              eq_refl eq_refl eq_refl eq_refl Hrange Hin Hmiss) as (Hstep & Hexplain & _).
  split; [exact Hstep | exact Hexplain].
Defined.

Lemma explain_skips_empty_clusters_witness :
  length ex_cluster = 5%nat ∧ length ex_regions = 5%nat ∧
  length ex_proj = 5%nat ∧ length ex_X = 5%nat ∧
  Forall in_range ex_regions ∧
  1 ∉ Np.unique ex_cluster ∧
  ∃ cfs, explain ex_proj ex_regions ex_X ex_cluster = Ok cfs.
Proof.
  do 4 (split; [reflexivity|]). split; [exact ex_regions_range|].
  destruct (explain_skips_empty_clusters ex_proj ex_regions ex_X ex_cluster 5
              eq_refl eq_refl eq_refl eq_refl ex_regions_range)
    as (Hskip & _ & Htotal & _).
  split; [apply Hskip; unfold ex_cluster; set_solver | exact (Htotal ex_regions_all)].
Defined.

Lemma explain_one_record_per_cluster_witness :
  length ex_cluster = 5%nat ∧ length ex_regions = 5%nat ∧
  length ex_proj = 5%nat ∧ length ex_X = 5%nat ∧
  Forall in_range ex_regions ∧
  (∀ r, in_range r → r ∈ ex_regions) ∧
  (∃ cfs, explain ex_proj ex_regions ex_X ex_cluster = Ok cfs ∧
     Forall2 (λ cluster_id cf,
                explain_cluster ex_proj ex_regions ex_X ex_cluster cluster_id = Ok cf)
             (Np.unique ex_cluster) cfs ∧
     length cfs = size (list_to_set ex_cluster : gset Z)) ∧
  StronglySorted Z.lt (Np.unique ex_cluster) ∧
  (∀ c, c ∈ Np.unique ex_cluster ↔ c ∈ ex_cluster).
Proof.
  do 4 (split; [reflexivity|]).
  split; [exact ex_regions_range|]. split; [exact ex_regions_all|].
  destruct (explain_one_record_per_cluster ex_proj ex_regions ex_X ex_cluster 5
              eq_refl eq_refl eq_refl eq_refl ex_regions_range ex_regions_all)
    as (H1 & H2 & H3 & _).
  split; [exact H1|]. split; [exact H2 | exact H3].
Defined.


(** * Further properties of the cells *)

(** ** The kernel *)

Lemma length_filter_all {A} (P : A → Prop) `{!∀ x, Decision (P x)} (l : list A) :
  length (filter P l) = length l ↔ Forall P l.
Proof.
  induction l as [|x l IH]; [by split; [constructor|]|].
  rewrite filter_cons. destruct (decide (P x)) as [HP|HP]; simpl.
  - rewrite Forall_cons. split.
    + intros [= Hl]. split; [done|]. by apply IH.
    + intros [_ Hl]. f_equal. by apply IH.
  - split.
    + intros Hl. pose proof (length_filter P l). lia.
    + by intros [? _]%Forall_cons.
Qed.

Lemma length_filter_none {A} (P : A → Prop) `{!∀ x, Decision (P x)} (l : list A) :
  length (filter P l) = O ↔ Forall (λ x, ¬ P x) l.
Proof.
  induction l as [|x l IH]; [by split; [constructor|]|].
  rewrite filter_cons. destruct (decide (P x)) as [HP|HP]; simpl.
  - split; [done|]. by intros [? _]%Forall_cons.
  - rewrite Forall_cons, IH. tauto.
Qed.

Lemma agree_count_full T (ri rj : list Z) :
  length ri = T → length rj = T → agree_count T ri rj = T ↔ ri = rj.
Proof.
  intros Hi Hj. unfold agree_count. split.
  - intros Hlen. apply list_eq. intros t.
    destruct (decide (t < T)%nat) as [Ht|Ht].
    + assert (Forall (λ t, ri !! t = rj !! t) (seq 0 T)) as Hall.
      { apply (proj1 (length_filter_all _ _)). by rewrite length_seq. }
      apply (proj1 (Forall_forall _ _) Hall), elem_of_seq. lia.
    + rewrite !lookup_ge_None_2; [done|lia..].
  - intros ->. apply agree_count_diag.
Qed.

Lemma agree_count_zero T (ri rj : list Z) :
  length ri = T → length rj = T →
  agree_count T ri rj = O ↔ ∀ t a, ri !! t = Some a → rj !! t ≠ Some a.
Proof.
  intros Hi Hj. unfold agree_count. rewrite length_filter_none, Forall_forall.
  split.
  - intros Hall t a Ha Hb. apply (Hall t); [|congruence].
    apply elem_of_seq. apply lookup_lt_Some in Ha. lia.
  - intros Hall t [_ Ht]%elem_of_seq Heq.
    destruct (lookup_lt_is_Some_2 ri t) as [a Ha]; [lia|].
    apply (Hall t a Ha). congruence.
Qed.

(** X1: the kernel value of two samples is 1 exactly when they fall into
    the same leaf in every tree, and 0 exactly when they share no leaf. *)
Theorem build_kernel_extremes N T (leaf_indices : list (list Z)) i j ri rj :
  rectangular N T leaf_indices → (1 ≤ N)%nat → (1 ≤ T)%nat →
  leaf_indices !! i = Some ri → leaf_indices !! j = Some rj →
  ∃ K q, build_kernel leaf_indices = Ok K ∧ entry K i j = Some (Np.Fin q) ∧
    ((q == 1)%Q ↔ ri = rj) ∧
    ((q == 0)%Q ↔ ∀ t a, ri !! t = Some a → rj !! t ≠ Some a).
Proof.
  intros Hrect HN HT Hi Hj.
  destruct (build_kernel_cells N T leaf_indices Hrect HN HT) as (K & HK & _ & Hcells).
  destruct (Hcells i j ri rj Hi Hj) as (y & Hentry & _ & Hy).
  destruct (rectangular_lookup _ _ _ _ _ Hrect Hi) as [_ Hri].
  destruct (rectangular_lookup _ _ _ _ _ Hrect Hj) as [_ Hrj].
  pose proof (Q_of_nat_pos T HT) as Hpos.
  exists K, (y / inject_Z (Z.of_nat T))%Q. split; [done|]. split; [done|]. split.
  - rewrite <- (agree_count_full T ri rj Hri Hrj), Hy. split.
    + intros Hq. apply Nat2Z.inj, inject_Z_injective.
      apply (Qmult_inj_r _ _ (/ inject_Z (Z.of_nat T))%Q).
      * intros H0. apply Qinv_lt_0_compat in Hpos. lra.
      * unfold Qdiv in Hq. rewrite Hq. field. lra.
    + intros ->. field. lra.
  - rewrite <- (agree_count_zero T ri rj Hri Hrj), Hy. split.
    + intros Hq. apply Nat2Z.inj, inject_Z_injective.
      apply (Qmult_inj_r _ _ (/ inject_Z (Z.of_nat T))%Q).
      * intros H0. apply Qinv_lt_0_compat in Hpos. lra.
      * unfold Qdiv in Hq. rewrite Hq. simpl. ring.
    + intros ->. simpl. unfold Qdiv. ring.
Qed.

Lemma build_kernel_extremes_witness :
  let leaf_indices := [[1; 5]; [1; 5]; [2; 5]; [2; 6]] in
  rectangular 4 2 leaf_indices ∧
  ∃ K q, build_kernel leaf_indices = Ok K ∧ entry K 0 3 = Some (Np.Fin q) ∧
    ((q == 1)%Q ↔ [1; 5] = [2; 6]) ∧
    ((q == 0)%Q ↔ ∀ t a, [1; 5] !! t = Some a → [2; 6] !! t ≠ Some a).
Proof.
  assert (rectangular 4 2 [[1; 5]; [1; 5]; [2; 5]; [2; 6]]) as Hrect.
  { split; [reflexivity|]. repeat constructor. }
  split; [exact Hrect|].
  apply (build_kernel_extremes 4 2 _ 0 3 [1; 5] [2; 6] Hrect); [lia | lia | done | done].
Defined.




Lemma foldl_ext_in {A B} (f g : A → B → A) (l : list B) : ∀ a,
  (∀ a x, x ∈ l → f a x = g a x) → foldl f a l = foldl g a l.
Proof.
  induction l as [|x l IH]; intros a Hext; [done|].
  simpl. rewrite Hext by set_solver. apply IH. intros; apply Hext. set_solver.
Qed.

Lemma outer_eq_inj (f : Z → Z) (v : list Z) :
  Inj (=) (=) f → Np.outer_eq (f <$> v) = Np.outer_eq v.
Proof.
  intros Hf. unfold Np.outer_eq. rewrite <- !list_fmap_compose.
  apply list_fmap_ext. intros _ a _. simpl. rewrite <- list_fmap_compose.
  apply list_fmap_ext. intros _ b _. simpl.
  destruct (Z.eqb_spec a b) as [->|Hne]; [apply Z.eqb_refl|].
  apply Z.eqb_neq. intros Heq. by apply Hne, Hf.
Qed.

Lemma column_relabel f N T (a : list (list Z)) t :
  rectangular N T a → (t < T)%nat →
  Np.column (relabel f a) t = f t <$> Np.column a t.
Proof.
  intros [_ Hrows] Ht. unfold Np.column, relabel.
  rewrite <- !list_fmap_compose. apply Forall_fmap_ext_1.
  eapply Forall_impl; [exact Hrows|]. intros r Hr. simpl in *.
  destruct (lookup_lt_is_Some_2 r t) as [x Hx]; [lia|].
  by rewrite list_lookup_imap, Hx.
Qed.

(** X3: leaf identifiers are only compared within a tree: renaming the
    leaves of each tree by an injective map leaves the kernel unchanged. *)
Theorem build_kernel_relabel N T (f : nat → Z → Z) (leaf_indices : list (list Z)) :
  rectangular N T leaf_indices →
  (∀ t, Inj (=) (=) (f t)) →
  build_kernel (relabel f leaf_indices) = build_kernel leaf_indices.
Proof.
  intros Hrect Hf. unfold build_kernel.
  assert (length (relabel f leaf_indices) = length leaf_indices) as ->.
  { unfold relabel. by rewrite length_fmap. }
  assert (Np.shape1 (relabel f leaf_indices) = Np.shape1 leaf_indices) as Hshape.
  { destruct leaf_indices as [|r a]; [done|]. simpl. by rewrite length_imap. }
  rewrite Hshape. f_equal. f_equal.
  unfold Np.columns. rewrite Hshape, !foldl_fmap.
  assert (Np.shape1 leaf_indices ≤ T)%nat as HT.
  { destruct Hrect as [_ Hrows]. destruct leaf_indices as [|r a]; simpl; [lia|].
    apply Forall_cons in Hrows as [-> _]. lia. }
  apply foldl_ext_in. intros acc t [_ Ht]%elem_of_seq.
  rewrite (column_relabel f N T leaf_indices t Hrect) by lia.
  unfold kernel_step. by rewrite outer_eq_inj.
Qed.

Lemma build_kernel_relabel_witness :
  let leaf_indices := [[1; 5]; [1; 5]; [2; 5]; [2; 6]] in
  let f := λ (t : nat) (x : Z), 2 * x + Z.of_nat t in
  rectangular 4 2 leaf_indices ∧
  (∀ t, Inj (=) (=) (f t)) ∧
  build_kernel (relabel f leaf_indices) = build_kernel leaf_indices.
Proof.
  assert (rectangular 4 2 [[1; 5]; [1; 5]; [2; 5]; [2; 6]]) as Hrect.
  { split; [reflexivity|]. repeat constructor. }
  assert (∀ t : nat, Inj (=) (=) (λ x : Z, 2 * x + Z.of_nat t)) as Hf.
  { intros t x y Hxy. simpl in Hxy. lia. }
  split; [exact Hrect|]. split; [exact Hf|].
  exact (build_kernel_relabel 4 2 _ _ Hrect Hf).
Defined.

Lemma matrix_eq {A} n k (m1 m2 : list (list A)) :
  rectangular n k m1 → rectangular n k m2 →
  (∀ i j, (i < n)%nat → (j < k)%nat → entry m1 i j = entry m2 i j) →
  m1 = m2.
Proof.
  intros [Hn1 Hr1] [Hn2 Hr2] Hentry. apply list_eq. intros i.
  destruct (decide (i < n)%nat) as [Hi|Hi].
  - destruct (lookup_lt_is_Some_2 m1 i) as [r1 H1]; [lia|].
    destruct (lookup_lt_is_Some_2 m2 i) as [r2 H2]; [lia|].
    rewrite H1, H2. f_equal. apply list_eq. intros j.
    pose proof (Forall_lookup_1 _ _ _ _ Hr1 H1) as Hl1.
    pose proof (Forall_lookup_1 _ _ _ _ Hr2 H2) as Hl2. simpl in *.
    destruct (decide (j < k)%nat) as [Hj|Hj].
    + specialize (Hentry i j Hi Hj). unfold entry in Hentry.
      by rewrite H1, H2 in Hentry.
    + rewrite !lookup_ge_None_2; [done|lia..].
  - rewrite !lookup_ge_None_2; [done|lia..].
Qed.

Lemma take_raises {A} (a : list A) idx i :
  i ∈ idx → (length a ≤ i)%nat → Np.take a idx = Raise IndexError.
Proof.
  intros Hin Hi. unfold Np.take.
  induction idx as [|i' idx IH]; [by apply elem_of_nil in Hin|]. simpl.
  destruct (a !! i') as [x|] eqn:Hx; simpl; [|done].
  rewrite IH; [done|]. apply elem_of_cons in Hin as [->|Hin]; [|done].
  apply lookup_lt_Some in Hx. lia.
Qed.

Lemma entry_reorder {A} (m M : list (list A)) idx a b ia ib :
  reorder m idx = Ok M → idx !! a = Some ia → idx !! b = Some ib →
  entry M a b = entry m ia ib.
Proof.
  unfold reorder. intros (rows & Hrows%take_Ok & HM%py_for_Ok)%py_bind_Ok Ha Hb.
  destruct (Forall2_lookup_l _ _ _ _ _ Hrows Ha) as (row & Hrow & Hia).
  destruct (Forall2_lookup_l _ _ _ _ _ HM Hrow) as (row' & Hrow' & Htake%take_Ok).
  unfold entry. rewrite Hrow', Hia. simpl.
  destruct (Forall2_lookup_l _ _ _ _ _ Htake Hb) as (x & -> & Hx). done.
Qed.

Lemma reorder_total {A} N (m : list (list A)) idx :
  rectangular N N m → Forall (λ i, (i < N)%nat) idx →
  ∃ M, reorder m idx = Ok M ∧ rectangular (length idx) (length idx) M.
Proof.
  intros [Hlen Hrows] Hidx. unfold reorder.
  destruct (take_total m idx) as [rows Hr]; [by rewrite Hlen|]. rewrite Hr. simpl.
  pose proof (proj1 (take_Ok _ _ _) Hr) as HF.
  destruct (py_for_total (λ row : list A, Np.take row idx) rows) as [M HM].
  - apply Forall_forall. intros row (k & Hk)%list_elem_of_lookup.
    destruct (Forall2_lookup_r _ _ _ _ _ HF Hk) as (i & _ & Hi).
    apply take_total. by rewrite (Forall_lookup_1 _ _ _ _ Hrows Hi).
  - exists M. split; [done|]. split.
    + rewrite (py_for_length _ _ _ HM). symmetry. by eapply Forall2_length.
    + apply Forall_forall. intros row' (k & Hk)%list_elem_of_lookup.
      apply py_for_Ok in HM.
      destruct (Forall2_lookup_r _ _ _ _ _ HM Hk) as (row & _ & Htake).
      by apply py_for_length in Htake.
Qed.

(** X4: the matrix shown with the samples sorted is the kernel of the
    sorted samples: reordering rows and columns of the kernel by an index
    array gives the kernel of the leaf rows taken in that order; an index
    outside the subset raises [IndexError]. *)
Theorem kernel_of_reordered_samples N T (leaf_indices : list (list Z)) (idx : list nat) :
  rectangular N T leaf_indices → (1 ≤ T)%nat →
  (Forall (λ i, (i < N)%nat) idx →
   ∃ K M sorted_leaves,
     build_kernel leaf_indices = Ok K ∧ reorder K idx = Ok M ∧
     Np.take leaf_indices idx = Ok sorted_leaves ∧
     build_kernel sorted_leaves = Ok M) ∧
  (∀ i K, i ∈ idx → (N ≤ i)%nat → build_kernel leaf_indices = Ok K →
     reorder K idx = Raise IndexError).
Proof.
  intros Hrect HT. split.
  - intros Hidx. destruct idx as [|i0 idx'] eqn:Eidx.
    { eexists _, [], []. by repeat split. }
    rewrite <- Eidx in *. assert (idx ≠ []) as Hne by (by rewrite Eidx).
    assert (1 ≤ N)%nat as HN.
    { rewrite Eidx in Hidx. apply Forall_cons in Hidx as [? _]. lia. }
    destruct (build_kernel_cells N T _ Hrect HN HT) as (K & HK & HKrect & Hcells).
    destruct (reorder_total N K idx HKrect Hidx) as (M & HM & HMrect).
    destruct (take_total leaf_indices idx) as [li' Hli'].
    { by rewrite (proj1 Hrect). }
    pose proof (proj1 (take_Ok _ _ _) Hli') as HF.
    assert (rectangular (length idx) T li') as Hrect'.
    { split; [symmetry; by eapply Forall2_length|].
      apply Forall_forall. intros r (k & Hk)%list_elem_of_lookup.
      destruct (Forall2_lookup_r _ _ _ _ _ HF Hk) as (i & _ & Hi).
      by eapply (Forall_lookup_1 _ _ _ _ (proj2 Hrect)). }
    assert (1 ≤ length idx)%nat as Hn by (destruct idx; [done | simpl; lia]).
    destruct (build_kernel_cells _ T li' Hrect' Hn HT) as (K' & HK' & HK'rect & Hcells').
    exists K, M, li'. repeat (split; [done|]). rewrite HK'. f_equal.
    apply (matrix_eq (length idx) (length idx)); [done..|].
    intros a b Ha Hb.
    destruct (lookup_lt_is_Some_2 idx a Ha) as [ia Hia].
    destruct (lookup_lt_is_Some_2 idx b Hb) as [ib Hib].
    destruct (Forall2_lookup_l _ _ _ _ _ HF Hia) as (ra & Hra' & Hra).
    destruct (Forall2_lookup_l _ _ _ _ _ HF Hib) as (rb & Hrb' & Hrb).
    rewrite (entry_reorder K M idx a b ia ib HM Hia Hib).
    destruct (Hcells' a b ra rb Hra' Hrb') as (y' & -> & -> & _).
    destruct (Hcells ia ib ra rb Hra Hrb) as (y & -> & -> & _).
    do 3 f_equal.
    rewrite (columns_rectangular _ T li' Hrect' Hn),
            (columns_rectangular N T leaf_indices Hrect HN).
    unfold cell_sum. rewrite !foldl_fmap. apply foldl_ext_in.
    intros acc t _. unfold Np.column.
    by rewrite !list_lookup_fmap, Hra', Hrb', Hra, Hrb.
  - intros i K Hin Hi HK. unfold reorder.
    assert (length K = N) as HKlen.
    { destruct (decide (N = O)) as [->|HN].
      - destruct Hrect as [->%nil_length_inv _]. cbv in HK. by injection HK as <-.
      - destruct (build_kernel_cells N T _ Hrect) as (K0 & HK0 & [HKlen _] & _);
          [lia | done | congruence]. }
    rewrite (take_raises K idx i Hin); [done | lia].
Qed.

Lemma kernel_of_reordered_samples_witness :
  let leaf_indices := [[1; 5]; [1; 5]; [2; 5]; [2; 6]] in
  let idx := [3; 0; 2; 1]%nat in
  rectangular 4 2 leaf_indices ∧
  Forall (λ i, (i < 4)%nat) idx ∧
  ∃ K M sorted_leaves,
     build_kernel leaf_indices = Ok K ∧ reorder K idx = Ok M ∧
     Np.take leaf_indices idx = Ok sorted_leaves ∧
     build_kernel sorted_leaves = Ok M.
Proof.
  assert (rectangular 4 2 [[1; 5]; [1; 5]; [2; 5]; [2; 6]]) as Hrect.
  { split; [reflexivity|]. repeat constructor. }
  assert (Forall (λ i, (i < 4)%nat) [3; 0; 2; 1]%nat) as Hidx by (repeat constructor).
  split; [exact Hrect|]. split; [exact Hidx|].
  destruct (kernel_of_reordered_samples 4 2 _ [3; 0; 2; 1]%nat Hrect ltac:(lia)) as [H _].
  exact (H Hidx).
Defined.

(** ** Region labelling *)

Lemma Qabs_cases (q : Q) :
  ((0 <= q)%Q ∧ (Qabs q == q)%Q) ∨ ((q < 0)%Q ∧ (Qabs q == - q)%Q).
Proof.
  destruct (Qlt_le_dec q 0) as [Hlt|Hge].
  - right. split; [done|]. apply Qabs_neg. lra.
  - left. split; [done|]. by apply Qabs_pos.
Qed.

Lemma region_of_unfold theta p :
  region_of theta p =
  if Np.Qltb (1 - theta) (2 * Qabs (p - 0.5))
  then (if Np.Qltb 0.5 p then 1 else -1)
  else 0.
Proof. unfold region_of. by destruct (Np.Qltb _ (2 * _)), (Np.Qltb 0.5 p). Qed.

Ltac region_cases :=
  rewrite !region_of_unfold;
  repeat match goal with
  | |- context [Np.Qltb ?x ?y] =>
      let H := fresh "H" in
      destruct (Np.Qltb x y) eqn:H;
      [apply Qltb_lt in H | apply Qltb_ge in H]
  end.



(** X6: the label is monotone in the predicted probability: a larger
    probability of "before" never gets a smaller label. *)
Theorem region_of_monotone (theta p p' : Q) :
  (p <= p')%Q → region_of theta p <= region_of theta p'.
Proof.
  intros Hp.
  destruct (Qabs_cases (p - 0.5)) as [[? Ha]|[? Ha]],
           (Qabs_cases (p' - 0.5)) as [[? Hb]|[? Hb]];
    region_cases; try done; lra.
Qed.

Lemma region_of_monotone_witness :
  (0.2 <= 0.75)%Q ∧ region_of 0.6 0.2 <= region_of 0.6 0.75.
Proof.
  assert (0.2 <= 0.75)%Q as H by (by vm_compute).
  split; [exact H|]. exact (region_of_monotone 0.6 0.2 0.75 H).
Defined.

(** X7: raising the threshold only moves samples out of the neutral
    region: a sample labelled +1 or −1 keeps its label under every larger
    theta. *)
Theorem region_of_threshold_monotone (theta theta' p : Q) :
  (theta <= theta')%Q → region_of theta p ≠ 0 →
  region_of theta' p = region_of theta p.
Proof.
  intros Htheta. destruct (Qabs_cases (p - 0.5)) as [[? Ha]|[? Ha]];
    region_cases; try done; lra.
Qed.

Lemma region_of_threshold_monotone_witness :
  (0.6 <= 0.9)%Q ∧ region_of 0.6 0.75 ≠ 0 ∧
  region_of 0.9 0.75 = region_of 0.6 0.75.
Proof.
  assert (0.6 <= 0.9)%Q as H by (by vm_compute).
  assert (region_of 0.6 0.75 ≠ 0) as Hnz by (by vm_compute).
  split; [exact H|]. split; [exact Hnz|].
  exact (region_of_threshold_monotone 0.6 0.9 0.75 H Hnz).
Defined.

(** ** The records of [explain] *)

Section ExplainMore.

Variables (proj : list (list Q)) (regions : list Z)
          (X_subset : list (list Q)) (cluster : list Z).

Lemma explain_records cfs :
  explain proj regions X_subset cluster = Ok cfs →
  Forall (λ cf, ∃ cluster_id,
            explain_cluster proj regions X_subset cluster cluster_id = Ok cf) cfs.
Proof.
  intros Hcfs%py_for_Ok. apply Forall_forall.
  intros cf (k & Hk)%list_elem_of_lookup.
  destruct (Forall2_lookup_r _ _ _ _ _ Hcfs Hk) as (id & _ & Hcf). by exists id.
Qed.


(** X8: each of the two tables of a record has exactly the three keys
    -1, 0 and +1. *)
Theorem explain_sample_tables_keys cfs :
  explain proj regions X_subset cluster = Ok cfs →
  Forall (λ cf, dom (sample_euc cf) = ({[ -1; 0; 1 ]} : gset Z) ∧
                dom (sample_rfk cf) = ({[ -1; 0; 1 ]} : gset Z)) cfs.
Proof.
  intros Hcfs. eapply Forall_impl; [by apply explain_records|].
  intros cf (id & Hcf). simpl.
  destruct (explain_cluster_Ok _ _ _ _ _ _ Hcf)
    as (mr & mp & mx & _ & _ & _ & _ & _ & _ & _ & Hloop).
  apply sample_loop_Ok in Hloop as [Hin Hout]. simpl in Hin, Hout.
  assert (∀ r : Z, r ∈ ({[ -1; 0; 1 ]} : gset Z) ↔ in_range r) as Hr.
  { intros r. unfold in_range. set_solver. }
  split; apply set_eq; intros r; rewrite Hr, elem_of_dom.
  - split.
    + intros Hsome. destruct (decide (in_range r)) as [|Hn]; [done|].
      destruct (Hout r Hn) as [Hnone _]. rewrite Hnone in Hsome. by destruct Hsome.
    + intros (ie & ir & He & _)%Hin. eauto.
  - split.
    + intros Hsome. destruct (decide (in_range r)) as [|Hn]; [done|].
      destruct (Hout r Hn) as [_ Hnone]. rewrite Hnone in Hsome. by destruct Hsome.
    + intros (ie & ir & _ & Hir & _)%Hin. eauto.
Qed.







(** *** Failures of [explain] *)

Lemma py_for_raise {A B} (f : A → pyresult B) xs e :
  py_for f xs = Raise e → ∃ x, x ∈ xs ∧ f x = Raise e.
Proof.
  induction xs as [|x xs IH]; simpl; [done|].
  destruct (f x) as [y|e'] eqn:Hx; simpl.
  - destruct (py_for f xs) as [ys|e'']; simpl; [done|].
    intros [= ->]. destruct IH as (x' & Hin & Hx'); [done|].
    exists x'. split; [set_solver | done].
  - intros [= ->]. exists x. split; [set_solver | done].
Qed.

Lemma py_fold_raise {A S} (f : S → A → pyresult S) xs : ∀ s e,
  py_fold f s xs = Raise e → ∃ s' x, x ∈ xs ∧ f s' x = Raise e.
Proof.
  induction xs as [|x xs IH]; intros s e; simpl; [done|].
  destruct (f s x) as [s1|e'] eqn:Hx; simpl.
  - intros (s' & x' & Hin & Hx')%IH. exists s', x'. split; [set_solver | done].
  - intros [= ->]. exists s, x. split; [set_solver | done].
Qed.

Lemma take_int_eye3_Ok (idxs : list Z) rows :
  Np.take_int Np.eye3 idxs = Ok rows →
  length rows = length idxs ∧ Forall (λ row, length row = 3%nat) rows.
Proof.
  intros Hrows. split; [by eapply py_for_length|].
  apply py_for_Ok in Hrows. apply Forall_forall.
  intros row (k & Hk)%list_elem_of_lookup.
  destruct (Forall2_lookup_r _ _ _ _ _ Hrows Hk) as (i & _ & Hi).
  apply py_bind_Ok in Hi as (j & _ & Hj).
  destruct (Np.eye3 !! j) as [row'|] eqn:E; [|done]. injection Hj as <-.
  destruct j as [|[|[|j]]]; simpl in E; [by injection E as <-..|done].
Qed.

Lemma wrap_index_3 (i : Z) :
  (-3 <= i < 3 → ∃ k, Np.wrap_index 3 i = Ok k ∧ (k < 3)%nat) ∧
  (¬ (-3 <= i < 3) → Np.wrap_index 3 i = Raise IndexError).
Proof.
  unfold Np.wrap_index. change (Z.of_nat 3) with 3. change (Z.opp 3) with (Z.neg 3).
  destruct (Z.leb_spec 0 i), (Z.ltb_spec i 3), (Z.leb_spec (-3) i), (Z.ltb_spec i 0);
    simpl; split; intros Hx;
    first [lia | done | (eexists; split; [reflexivity | lia])].
Qed.

Lemma take_int_eye3_raise (rs : list Z) e :
  Np.take_int Np.eye3 ((λ r : Z, r + 1) <$> rs) = Raise e →
  e = IndexError ∧ ∃ r, r ∈ rs ∧ out_of_bounds r.
Proof.
  intros (i & Hin & Hi)%py_for_raise.
  apply list_elem_of_fmap in Hin as (r & -> & Hr).
  change (length Np.eye3) with 3%nat in Hi.
  destruct (wrap_index_3 (r + 1)) as [Hok Hbad].
  destruct (decide (-3 <= r + 1 < 3)) as [Hin|Hout].
  - destruct (Hok Hin) as (k & Hk & Hlt). rewrite Hk in Hi. simpl in Hi.
    destruct k as [|[|[|k]]]; [done..|lia].
  - rewrite (Hbad Hout) in Hi. injection Hi as <-. split; [done|].
    exists r. split; [done|]. unfold out_of_bounds. lia.
Qed.

Lemma region_verdict_rows rows :
  rows ≠ [] → Forall (λ row, length row = 3%nat) rows →
  ∃ v, region_verdict (Np.mean_axis0 rows) = Ok v.
Proof.
  intros Hne Hrows.
  destruct (mean_axis0_spec (length rows) 3 rows) as [Hlen _]; [done..|].
  destruct (argmax_spec (Np.mean_axis0 rows)) as (k & m & Hk & Hm & _).
  { by destruct (Np.mean_axis0 rows). }
  unfold region_verdict. rewrite Hk. simpl.
  apply lookup_lt_Some in Hm. rewrite Hlen in Hm.
  destruct (lookup_lt_is_Some_2 [-1; 0; 1] k Hm) as [v ->]. by exists v.
Qed.

(** The part of the loop body before the inner loop either raises
    [IndexError] or hands over to the inner loop. *)
Lemma explain_cluster_prefix_cases cluster_id :
  cluster_id ∈ cluster →
  (explain_cluster proj regions X_subset cluster cluster_id = Raise IndexError ∧
   (¬ (length regions = length cluster ∧ length proj = length cluster ∧
       length X_subset = length cluster) ∨
    ∃ r, r ∈ regions ∧ out_of_bounds r)) ∨
  (length regions = length cluster ∧ length proj = length cluster ∧
   length X_subset = length cluster ∧
   ∃ dist verdict proj_proto X_proto,
     explain_cluster proj regions X_subset cluster cluster_id =
       d ← py_fold (sample_step proj X_subset regions proj_proto X_proto) (∅, ∅) [-1; 0; 1];
       Ok {| region_dist := dist; region := verdict;
             sample_euc := d.1; sample_rfk := d.2;
             proto_rfk := proj_proto; proto_euc := X_proto |}).
Proof.
  intros Hid. unfold explain_cluster.
  destruct (decide (length regions = length cluster)) as [Hlr|Hlr]; cycle 1.
  { left. unfold Np.bool_index, Np.eq_scalar. rewrite length_fmap.
    destruct (decide (length cluster = length regions)) as [Heq|_]; [congruence|].
    split; [done|]. left. tauto. }
  destruct (bool_index_members regions cluster cluster_id Hlr) as (mr & -> & Hmr).
  simpl. unfold region_distribution.
  assert (mr ≠ []) as Hne.
  { intros ->. apply Forall2_nil_inv_r in Hmr. by apply (members_nonempty cluster cluster_id). }
  destruct (Np.take_int Np.eye3 ((λ r : Z, r + 1) <$> mr)) as [rows|e] eqn:Hrows; simpl.
  2:{ left. apply take_int_eye3_raise in Hrows as (-> & r & Hr & Hout).
      split; [done|]. right. exists r. split; [|done].
      apply list_elem_of_lookup in Hr as [k Hk].
      destruct (Forall2_lookup_r _ _ _ _ _ Hmr Hk) as (i & _ & Hi).
      by eapply list_elem_of_lookup_2. }
  apply take_int_eye3_Ok in Hrows as [Hlen Hrows]. rewrite length_fmap in Hlen.
  destruct (region_verdict_rows rows) as [v ->]; [by destruct rows, mr|done|]. simpl.
  destruct (decide (length proj = length cluster)) as [Hlp|Hlp]; cycle 1.
  { left. unfold Np.bool_index, Np.eq_scalar. rewrite length_fmap.
    destruct (decide (length cluster = length proj)) as [Heq|_]; [congruence|].
    split; [done|]. left. tauto. }
  destruct (bool_index_members proj cluster cluster_id Hlp) as (mp & -> & _). simpl.
  destruct (decide (length X_subset = length cluster)) as [HlX|HlX]; cycle 1.
  { left. unfold Np.bool_index, Np.eq_scalar. rewrite length_fmap.
    destruct (decide (length cluster = length X_subset)) as [Heq|_]; [congruence|].
    split; [done|]. left. tauto. }
  destruct (bool_index_members X_subset cluster cluster_id HlX) as (mx & -> & _). simpl.
  right. repeat (split; [done|]). by eexists _, _, _, _.
Qed.

Lemma nearest_raise (data : list (list Q)) proto sel e :
  nearest data proto sel = Raise e →
  (e = ValueError ∧ sel = []) ∨
  (e = IndexError ∧ ∃ i, i ∈ sel ∧ (length data ≤ i)%nat).
Proof.
  unfold nearest. destruct (Np.take data sel) as [rows|e'] eqn:Hrows; simpl.
  - pose proof (py_for_length _ _ _ Hrows) as Hlen.
    destruct rows as [|row rows].
    + intros [= <-]. left. split; [done|]. by destruct sel.
    + destruct (argmin_spec (Np.sqdists (row :: rows) proto)) as (k & m & Hk & Hm & _);
        [done|].
      rewrite Hk. simpl. apply lookup_lt_Some in Hm.
      unfold Np.sqdists in Hm. rewrite length_fmap, Hlen in Hm.
      by destruct (lookup_lt_is_Some_2 sel k Hm) as [i ->].
  - intros [= ->]. right. apply py_for_raise in Hrows as (i & Hin & Hi).
    destruct (data !! i) eqn:E; [done|]. injection Hi as <-.
    split; [done|]. exists i. split; [done|]. by apply lookup_ge_None.
Qed.

Lemma sample_loop_raise proj_proto X_proto e :
  length proj = length regions → length X_subset = length regions →
  py_fold (sample_step proj X_subset regions proj_proto X_proto) (∅, ∅) [-1; 0; 1]
  = Raise e →
  e = ValueError ∧ ∃ r, in_range r ∧ r ∉ regions.
Proof.
  intros Hlp HlX (d & r & Hr & Hstep)%py_fold_raise.
  unfold sample_step in Hstep. rewrite where0_eq_scalar in Hstep.
  assert (∀ (data : list (list Q)) proto, length data = length regions →
            nearest data proto (members regions r) = Raise e →
            e = ValueError ∧ r ∉ regions) as Hnear.
  { intros data proto Hlen [[-> Hnil] | [-> (i & Hi & Hge)]]%nearest_raise.
    - split; [done|]. intros Hin. by apply (members_nonempty regions r).
    - apply elem_of_members, lookup_lt_Some in Hi. lia. }
  assert (e = ValueError ∧ r ∉ regions) as [-> Hmiss]; [|by eauto].
  destruct (nearest X_subset X_proto (members regions r)) as [ie|e1] eqn:H1;
    simpl in Hstep.
  - destruct (nearest proj proj_proto (members regions r)) as [ir|e2] eqn:H2;
      simpl in Hstep; [done|]. injection Hstep as ->.
    by apply (Hnear proj proj_proto).
  - injection Hstep as ->. by apply (Hnear X_subset X_proto).
Qed.

(** X12: when the region, embedding or feature array has not the length of
    the cluster assignment, [explain] raises [IndexError] in its first
    cluster, whatever the arrays hold. *)
Theorem explain_length_mismatch :
  cluster ≠ [] →
  ¬ (length regions = length cluster ∧ length proj = length cluster ∧
     length X_subset = length cluster) →
  explain proj regions X_subset cluster = Raise IndexError.
Proof.
  intros Hne Hlen. unfold explain.
  destruct (Np.unique cluster) as [|id ids] eqn:Hu.
  - destruct cluster as [|c cl]; [done|].
    assert (c ∈ Np.unique (c :: cl)) as Hc by (apply elem_of_unique; set_solver).
    rewrite Hu in Hc. set_solver.
  - assert (id ∈ cluster) as Hid by (apply elem_of_unique; rewrite Hu; set_solver).
    simpl. destruct (explain_cluster_prefix_cases id Hid) as [[-> _] | (? & ? & ? & _)];
      [done | tauto].
Qed.

(** X13: [explain] fails in two ways only.  It raises [ValueError] only
    if one of the region values -1, 0, +1 is absent from the subset, and
    [IndexError] only if an array has not the length of the cluster
    assignment or a region value lies outside -4..1; it never raises
    [KeyError]. *)
Theorem explain_failures e :
  explain proj regions X_subset cluster = Raise e →
  (e = ValueError ∧ ∃ r, in_range r ∧ r ∉ regions) ∨
  (e = IndexError ∧
   (¬ (length regions = length cluster ∧ length proj = length cluster ∧
       length X_subset = length cluster) ∨
    ∃ r, r ∈ regions ∧ out_of_bounds r)).
Proof.
  intros (id & Hid & Hraise)%py_for_raise. rewrite elem_of_unique in Hid.
  destruct (explain_cluster_prefix_cases id Hid)
    as [[Hidx Hwhy] | (Hlr & Hlp & HlX & dist & v & pp & xp & Hloop)].
  - right. split; [congruence | done].
  - left. rewrite Hloop in Hraise.
    destruct (py_fold _ _ _) as [d|e'] eqn:Hfold; [done|].
    injection Hraise as ->.
    apply sample_loop_raise in Hfold; [done | congruence..].
Qed.

(** X14: a region value below -4 or above 1 at a sample makes [explain]
    fail: no record is returned. *)
Theorem explain_region_out_of_bounds i r :
  (i < length cluster)%nat → regions !! i = Some r → out_of_bounds r →
  ∃ e, explain proj regions X_subset cluster = Raise e.
Proof.
  intros Hi Hr Hout.
  destruct (explain proj regions X_subset cluster) as [cfs|e] eqn:Hcfs; [|by eexists].
  exfalso. apply py_for_Ok in Hcfs.
  destruct (lookup_lt_is_Some_2 cluster i Hi) as [c Hc].
  assert (c ∈ Np.unique cluster) as (k & Hk)%list_elem_of_lookup.
  { apply elem_of_unique. by eapply list_elem_of_lookup_2. }
  destruct (Forall2_lookup_l _ _ _ _ _ Hcfs Hk) as (cf & _ & Hcf).
  destruct (explain_cluster_prefix_cases c) as [[Hraise _] | (Hlr & _ & _ & _)];
    [by eapply list_elem_of_lookup_2 | congruence |].
  apply explain_cluster_Ok in Hcf as (mr & mp & mx & Hmr & Hdist & _).
  apply bool_index_cluster in Hmr as [_ Hmr].
  assert (r ∈ mr) as Hin.
  { assert (i ∈ members cluster c) as (j & Hj)%list_elem_of_lookup
      by (by apply elem_of_members).
    destruct (Forall2_lookup_l _ _ _ _ _ Hmr Hj) as (y & Hy & Hy').
    assert (y = r) as -> by congruence. by eapply list_elem_of_lookup_2. }
  unfold region_distribution in Hdist.
  apply py_bind_Ok in Hdist as (rows & Hrows%py_for_Ok & _).
  apply list_elem_of_lookup in Hin as [j Hj].
  assert (((λ r : Z, r + 1) <$> mr) !! j = Some (r + 1)) as Hj'
    by (by rewrite list_lookup_fmap, Hj).
  destruct (Forall2_lookup_l _ _ _ _ _ Hrows Hj') as (row & _ & Hrow).
  apply py_bind_Ok in Hrow as (n & Hn & _).
  change (length Np.eye3) with 3%nat in Hn.
  destruct (wrap_index_3 (r + 1)) as [_ Hbad]. rewrite Hbad in Hn; [done|].
  unfold out_of_bounds in Hout. lia.
Qed.

(** *** Renaming the clusters *)

Lemma py_for_perm {A B} (g : A → pyresult B) l l' :
  l ≡ₚ l' → ∀ ys, py_for g l = Ok ys → ∃ ys', py_for g l' = Ok ys' ∧ ys ≡ₚ ys'.
Proof.
  induction 1 as [|x l l' Hperm IH|x y l|l l' l'' _ IH1 _ IH2]; intros ys Hys.
  - exists ys. by split.
  - simpl in *. apply py_bind_Ok in Hys as (y & Hy & Hys).
    apply py_bind_Ok in Hys as (ys0 & Hys0 & [= <-]).
    destruct (IH ys0 Hys0) as (ys' & Hys' & Hp).
    exists (y :: ys'). rewrite Hy. simpl. rewrite Hys'. simpl.
    split; [done|]. by constructor.
  - simpl in *. apply py_bind_Ok in Hys as (b1 & Hb1 & Hys).
    apply py_bind_Ok in Hys as (ys1 & Hys1 & [= <-]).
    apply py_bind_Ok in Hys1 as (b2 & Hb2 & Hys1).
    apply py_bind_Ok in Hys1 as (ys0 & Hys0 & [= <-]).
    exists (b2 :: b1 :: ys0). rewrite Hb2. simpl. rewrite Hb1. simpl.
    rewrite Hys0. simpl. split; [done|]. apply Permutation_swap.
  - destruct (IH1 ys Hys) as (ys1 & Hys1 & Hp1).
    destruct (IH2 ys1 Hys1) as (ys2 & Hys2 & Hp2).
    exists ys2. split; [done|]. by etrans.
Qed.

Lemma eq_scalar_fmap (f : Z → Z) (a : list Z) v :
  Inj (=) (=) f → Np.eq_scalar (f <$> a) (f v) = Np.eq_scalar a v.
Proof.
  intros Hf. unfold Np.eq_scalar. rewrite <- list_fmap_compose.
  apply list_fmap_ext. intros _ x _. simpl.
  destruct (Z.eqb_spec x v) as [->|Hne]; [apply Z.eqb_refl|].
  apply Z.eqb_neq. intros Heq. by apply Hne, Hf.
Qed.

Lemma unique_fmap_perm (f : Z → Z) (a : list Z) :
  Inj (=) (=) f → Np.unique (f <$> a) ≡ₚ f <$> Np.unique a.
Proof.
  intros Hf. apply NoDup_Permutation.
  - apply unique_NoDup.
  - apply NoDup_fmap_2; [done | apply unique_NoDup].
  - intros y. rewrite elem_of_unique, !list_elem_of_fmap.
    by setoid_rewrite elem_of_unique.
Qed.

Lemma insert_unique_fmap (f : Z → Z) x (l : list Z) :
  (∀ x y, x < y → f x < f y) →
  Np.insert_unique (f x) (f <$> l) = f <$> Np.insert_unique x l.
Proof.
  intros Hf. induction l as [|y l IH]; [done|]. simpl.
  destruct (Z.ltb_spec x y) as [Hlt|Hge].
  - pose proof (Hf x y Hlt). by destruct (Z.ltb_spec (f x) (f y)); [|lia].
  - destruct (Z.eqb_spec x y) as [->|Hne].
    + rewrite Z.ltb_irrefl, Z.eqb_refl. done.
    + pose proof (Hf y x ltac:(lia)).
      destruct (Z.ltb_spec (f x) (f y)); [lia|].
      destruct (Z.eqb_spec (f x) (f y)); [lia|]. simpl. f_equal. exact IH.
Qed.

Lemma unique_fmap_mono (f : Z → Z) (a : list Z) :
  (∀ x y, x < y → f x < f y) → Np.unique (f <$> a) = f <$> Np.unique a.
Proof.
  intros Hf. induction a as [|x a IH]; [done|]. rewrite fmap_cons.
  change (Np.unique (f x :: (f <$> a)))
    with (Np.insert_unique (f x) (Np.unique (f <$> a))).
  change (Np.unique (x :: a)) with (Np.insert_unique x (Np.unique a)).
  rewrite IH. by apply insert_unique_fmap.
Qed.

Lemma explain_rename_fmap (f : Z → Z) :
  Inj (=) (=) f →
  py_for (explain_cluster proj regions X_subset (f <$> cluster)) (f <$> Np.unique cluster)
  = explain proj regions X_subset cluster.
Proof.
  intros Hf. unfold explain.
  generalize (Np.unique cluster). intros ids.
  induction ids as [|id ids IH]; [done|].
  rewrite fmap_cons. cbn [py_for]. rewrite IH.
  unfold explain_cluster. by rewrite (eq_scalar_fmap f cluster id Hf).
Qed.

(** X15: the records do not depend on how the clusters are numbered: an
    injective renaming of the cluster ids yields the same records up to
    their order, and an order-preserving renaming the same list. *)
Theorem explain_rename_clusters (f : Z → Z) cfs :
  Inj (=) (=) f →
  explain proj regions X_subset cluster = Ok cfs →
  ∃ cfs', explain proj regions X_subset (f <$> cluster) = Ok cfs' ∧
    cfs' ≡ₚ cfs ∧
    ((∀ x y, x < y → f x < f y) → cfs' = cfs).
Proof.
  intros Hf Hcfs. rewrite <- (explain_rename_fmap f Hf) in Hcfs.
  destruct (py_for_perm _ _ (Np.unique (f <$> cluster))
              ltac:(symmetry; by apply unique_fmap_perm) cfs Hcfs) as (cfs' & Hcfs' & Hp).
  exists cfs'. split; [done|]. split; [done|].
  intros Hmono. unfold explain in Hcfs'.
  rewrite (unique_fmap_mono f cluster Hmono) in Hcfs'. congruence.
Qed.

End ExplainMore.

Lemma explain_sample_tables_keys_witness :
  ∃ cfs, explain ex_proj ex_regions ex_X ex_cluster = Ok cfs ∧
    Forall (λ cf, dom (sample_euc cf) = ({[ -1; 0; 1 ]} : gset Z) ∧
                  dom (sample_rfk cf) = ({[ -1; 0; 1 ]} : gset Z)) cfs.
Proof.
  destruct (explain ex_proj ex_regions ex_X ex_cluster) as [cfs|e] eqn:Hcfs;
    [|by vm_compute in Hcfs].
  exists cfs. split; [reflexivity|].
  exact (explain_sample_tables_keys ex_proj ex_regions ex_X ex_cluster cfs Hcfs).
Defined.




Lemma explain_length_mismatch_witness :
  ex_cluster ≠ [] ∧
  ¬ (length [0; 1] = length ex_cluster ∧ length ex_proj = length ex_cluster ∧
     length ex_X = length ex_cluster) ∧
  explain ex_proj [0; 1] ex_X ex_cluster = Raise IndexError.
Proof.
  assert (ex_cluster ≠ []) as Hne by done.
  assert (¬ (length [0; 1] = length ex_cluster ∧ length ex_proj = length ex_cluster ∧
             length ex_X = length ex_cluster)) as Hlen.
  { intros [Hl _]. discriminate Hl. }
  split; [exact Hne|]. split; [exact Hlen|].
  exact (explain_length_mismatch ex_proj [0; 1] ex_X ex_cluster Hne Hlen).
Defined.

Lemma explain_failures_witness :
  explain ex_proj [0; 0; 0; 0; 0] ex_X ex_cluster = Raise ValueError ∧
  ((ValueError = ValueError ∧ ∃ r, in_range r ∧ r ∉ [0; 0; 0; 0; 0]) ∨
   (ValueError = IndexError ∧
    (¬ (length [0; 0; 0; 0; 0] = length ex_cluster ∧ length ex_proj = length ex_cluster ∧
        length ex_X = length ex_cluster) ∨
     ∃ r, r ∈ [0; 0; 0; 0; 0] ∧ out_of_bounds r))).
Proof.
  assert (explain ex_proj [0; 0; 0; 0; 0] ex_X ex_cluster = Raise ValueError) as H
    by (by vm_compute).
  split; [exact H|].
  exact (explain_failures ex_proj [0; 0; 0; 0; 0] ex_X ex_cluster ValueError H).
Defined.

Lemma explain_region_out_of_bounds_witness :
  (0 < length ex_cluster)%nat ∧ [2; 1; 0; 1; -1] !! 0%nat = Some 2 ∧ out_of_bounds 2 ∧
  ∃ e, explain ex_proj [2; 1; 0; 1; -1] ex_X ex_cluster = Raise e.
Proof.
  assert (0 < length ex_cluster)%nat as Hi by (simpl; lia).
  assert (out_of_bounds 2) as Hout by (right; lia).
  split; [exact Hi|]. split; [reflexivity|]. split; [exact Hout|].
  exact (explain_region_out_of_bounds ex_proj [2; 1; 0; 1; -1] ex_X ex_cluster
           0 2 Hi eq_refl Hout).
Defined.

Lemma explain_rename_clusters_witness :
  let f := λ x : Z, 7 - x in
  Inj (=) (=) f ∧
  ∃ cfs, explain ex_proj ex_regions ex_X ex_cluster = Ok cfs ∧
  ∃ cfs', explain ex_proj ex_regions ex_X (f <$> ex_cluster) = Ok cfs' ∧
    cfs' ≡ₚ cfs ∧
    ((∀ x y, x < y → f x < f y) → cfs' = cfs).
Proof.
  assert (Inj (=) (=) (λ x : Z, 7 - x)) as Hf.
  { intros x y Hxy. simpl in Hxy. lia. }
  split; [exact Hf|].
  destruct (explain ex_proj ex_regions ex_X ex_cluster) as [cfs|e] eqn:Hcfs;
    [|by vm_compute in Hcfs].
  exists cfs. split; [reflexivity|].
  exact (explain_rename_clusters ex_proj ex_regions ex_X ex_cluster _ cfs Hf Hcfs).
Defined.

(** ** Temporal labels *)

Lemma dict_get_Ok (d : list (Z * Z)) k v : dict_get d k = Ok v → (k, v) ∈ d.
Proof.
  induction d as [|[k' v'] d IH]; simpl; [done|].
  destruct (Z.eqb_spec k' k) as [->|Hne].
  - intros [= ->]. set_solver.
  - intros H. apply IH in H. set_solver.
Qed.

Lemma dict_get_key (d : list (Z * Z)) k :
  k ∈ d.*1 → ∃ v, dict_get d k = Ok v.
Proof.
  induction d as [|[k' v'] d IH]; simpl; [by intros ?%elem_of_nil|].
  destruct (Z.eqb_spec k' k) as [->|Hne]; [by eexists|].
  intros [?|?]%elem_of_cons; [done | by apply IH].
Qed.

Lemma dict_get_no_key (d : list (Z * Z)) k :
  k ∉ d.*1 → dict_get d k = Raise KeyError.
Proof.
  induction d as [|[k' v'] d IH]; simpl; [done|].
  intros Hk. destruct (Z.eqb_spec k' k) as [->|Hne]; [set_solver|].
  apply IH. set_solver.
Qed.

Lemma dict_get_raise (d : list (Z * Z)) k e :
  dict_get d k = Raise e → e = KeyError ∧ k ∉ d.*1.
Proof.
  intros Hraise. destruct (decide (k ∈ d.*1)) as [Hin|Hout].
  - apply dict_get_key in Hin as [v Hv]. congruence.
  - rewrite (dict_get_no_key d k Hout) in Hraise. by injection Hraise as <-.
Qed.

Lemma y_mapped_time_label label_map (y y_mapped : list Z) :
  py_for (dict_get label_map) y = Ok y_mapped → y_mapped = time_label label_map <$> y.
Proof.
  intros HF%py_for_Ok. induction HF as [|d m y ym Hd _ IH]; [done|].
  rewrite fmap_cons. unfold time_label at 1. rewrite Hd. by f_equal.
Qed.

Lemma compress_fmap_filter {A B} (b : B → bool) (ys : list B) : ∀ (xs : list A),
  length xs = length ys →
  zip (Np.compress (b <$> ys) xs) (Np.compress (b <$> ys) ys)
  = filter (λ p : A * B, b p.2 = true) (zip xs ys).
Proof.
  induction ys as [|y ys IH]; intros [|x xs] Hlen; simplify_eq/=; [done|].
  rewrite filter_cons. simpl. destruct (b y) eqn:Hb.
  - rewrite decide_True by done. simpl. f_equal. by apply IH.
  - rewrite decide_False by done. by apply IH.
Qed.

Lemma length_compress {A B} (mask : list bool) : ∀ (xs : list A) (ys : list B),
  length xs = length mask → length ys = length mask →
  length (Np.compress mask xs) = length (Np.compress mask ys).
Proof.
  induction mask as [|b mask IH]; intros [|x xs] [|y ys] Hx Hy; simplify_eq/=; [done|].
  destruct b; simpl; [f_equal|]; by apply IH.
Qed.

Lemma compress_fmap {A B} (f : A → B) (mask : list bool) : ∀ (xs : list A),
  Np.compress mask (f <$> xs) = f <$> Np.compress mask xs.
Proof.
  induction mask as [|b mask IH]; intros [|x xs]; simpl; try done.
  destruct b; simpl; by rewrite IH.
Qed.

Lemma compress_Forall {A} (P : A → Prop) (g : A → bool) (xs : list A) :
  (∀ x, g x = true → P x) → Forall P (Np.compress (g <$> xs) xs).
Proof.
  intros Hg. induction xs as [|x xs IH]; simpl; [constructor|].
  destruct (g x) eqn:E; [constructor; auto | done].
Qed.

(** X16: the cleaning step keeps, in their order, exactly the samples whose
    digit has a non-zero temporal label, in all three arrays alike, and
    [y_mapped_clean] holds the labels of the kept digits; a digit that is
    no key of the dict raises [KeyError]. *)
Theorem clean_labels_spec {A} (label_map : list (Z * Z)) (choice : nat → list Z)
    (X : list A) (y : list Z) :
  length X = length y →
  (Forall (λ digit, digit ∈ label_map.*1) y →
   ∃ c, clean_labels label_map choice X y = Ok c ∧
     zip (X_clean c) (y_clean c)
       = filter (λ p : A * Z, time_label label_map p.2 ≠ 0) (zip X y) ∧
     length (X_clean c) = length (y_clean c) ∧
     y_mapped_clean c = time_label label_map <$> y_clean c ∧
     Forall (λ m, m ≠ 0) (y_mapped_clean c)) ∧
  (∀ digit, digit ∈ y → digit ∉ label_map.*1 →
     clean_labels label_map choice X y = Raise KeyError).
Proof.
  intros Hlen. split.
  - intros Hkeys. unfold clean_labels.
    destruct (py_for_total (dict_get label_map) y) as [ym Hym].
    { eapply Forall_impl; [exact Hkeys|]. intros d. apply dict_get_key. }
    rewrite Hym. simpl. apply y_mapped_time_label in Hym as ->.
    set (b := λ d : Z, negb (time_label label_map d =? 0)).
    assert (Np.ne_scalar (time_label label_map <$> y) 0 = b <$> y) as ->.
    { unfold Np.ne_scalar. by rewrite <- list_fmap_compose. }
    unfold Np.bool_index. rewrite !length_fmap.
    rewrite !decide_True by done. simpl.
    eexists. split; [reflexivity|]. simpl. split; [|split; [|split]].
    + rewrite (compress_fmap_filter b y X Hlen). apply list_filter_iff.
      intros [x d]. unfold b. simpl. rewrite negb_true_iff, Z.eqb_neq. done.
    + apply length_compress; by rewrite length_fmap.
    + apply compress_fmap.
    + rewrite compress_fmap. apply Forall_fmap.
      apply (compress_Forall (λ d, time_label label_map d ≠ 0) b).
      intros d. unfold b. by rewrite negb_true_iff, Z.eqb_neq.
  - intros d Hd Hkey. unfold clean_labels.
    destruct (py_for (dict_get label_map) y) as [ym|e] eqn:Hym.
    + apply py_for_Ok in Hym. apply list_elem_of_lookup in Hd as [i Hi].
      destruct (Forall2_lookup_l _ _ _ _ _ Hym Hi) as (m & _ & Hm).
      by rewrite (dict_get_no_key label_map d Hkey) in Hm.
    + apply py_for_raise in Hym as (d' & _ & Hd').
      by apply dict_get_raise in Hd' as [-> _].
Qed.

Lemma clean_labels_spec_witness :
  let X := [10; 11; 12; 13; 14]%nat in
  let y := [4; 7; 0; 2; 9] in
  let choice := λ k : nat, replicate k 2 in
  length X = length y ∧
  Forall (λ digit, digit ∈ label_map_fashion.*1) y ∧
  ∃ c, clean_labels label_map_fashion choice X y = Ok c ∧
     zip (X_clean c) (y_clean c)
       = filter (λ p : nat * Z, time_label label_map_fashion p.2 ≠ 0) (zip X y) ∧
     length (X_clean c) = length (y_clean c) ∧
     y_mapped_clean c = time_label label_map_fashion <$> y_clean c ∧
     Forall (λ m, m ≠ 0) (y_mapped_clean c).
Proof.
  assert (Forall (λ digit, digit ∈ label_map_fashion.*1) [4; 7; 0; 2; 9]) as Hkeys.
  { repeat constructor; unfold label_map_fashion; simpl; set_solver. }
  split; [reflexivity|]. split; [exact Hkeys|].
  destruct (clean_labels_spec label_map_fashion (λ k : nat, replicate k 2)
              [10; 11; 12; 13; 14]%nat [4; 7; 0; 2; 9] eq_refl) as [H _].
  exact (H Hkeys).
Defined.

Lemma Forall_compress {A} (P : A → Prop) (mask : list bool) : ∀ xs : list A,
  Forall P xs → Forall P (Np.compress mask xs).
Proof.
  induction mask as [|b mask IH]; intros xs Hxs; [constructor|].
  destruct Hxs as [|x xs Hx Hxs]; simpl; [constructor|].
  destruct b; [constructor; [done|]|]; by apply IH.
Qed.

Lemma length_put {A} (idx : list nat) : ∀ (a vals : list A),
  length (Np.put a idx vals) = length a.
Proof.
  unfold Np.put. induction idx as [|i idx IH]; intros a [|v vals]; try done.
  simpl. rewrite IH. apply length_insert.
Qed.

Lemma put_lookup_notin {A} (idx : list nat) i : ∀ (a vals : list A),
  i ∉ idx → Np.put a idx vals !! i = a !! i.
Proof.
  unfold Np.put. induction idx as [|i0 idx IH]; intros a [|v vals] Hi; try done.
  simpl. rewrite IH by set_solver. apply list_lookup_insert_ne. set_solver.
Qed.

Lemma put_lookup_in {A} (idx : list nat) : ∀ (a vals : list A) k i,
  NoDup idx → length idx = length vals →
  idx !! k = Some i → (i < length a)%nat →
  Np.put a idx vals !! i = vals !! k.
Proof.
  induction idx as [|i0 idx IH]; intros a [|v vals] k i Hnd Hlen Hk Hi;
    simplify_eq/=.
  apply NoDup_cons in Hnd as [Hi0 Hnd].
  change (Np.put a (i0 :: idx) (v :: vals)) with (Np.put (<[i0:=v]> a) idx vals).
  destruct k as [|k]; simplify_eq/=.
  - rewrite put_lookup_notin by done. by apply list_lookup_insert_eq.
  - apply IH; [done..|]. by rewrite length_insert.
Qed.

Lemma clean_labels_Ok {A} label_map choice (X : list A) (y : list Z) c :
  clean_labels label_map choice X y = Ok c →
  ∃ y_mapped,
    py_for (dict_get label_map) y = Ok y_mapped ∧
    y_mapped_clean c = Np.compress (Np.ne_scalar y_mapped 0) y_mapped ∧
    y_mixed c = Np.put (y_mapped_clean c) (members (y_mapped_clean c) 3)
                  (choice (length (members (y_mapped_clean c) 3))).
Proof.
  unfold clean_labels. intros H.
  apply py_bind_Ok in H as (ym & Hym & H).
  apply py_bind_Ok in H as (xc & _ & H).
  apply py_bind_Ok in H as (yc & _ & H).
  apply py_bind_Ok in H as (ymc & Hymc & H).
  injection H as <-. simpl. exists ym. split; [done|].
  unfold Np.bool_index in Hymc. case_decide; [|done]. injection Hymc as <-.
  by rewrite where0_eq_scalar.
Qed.

(** X17: when the dict maps into 0..3 and the draw returns as many values
    of {1, 2} as requested, the labels handed to the classifier are all 1
    or 2: every sample labelled "both" gets one of the two at random, and
    every other sample keeps its label. *)
Theorem clean_labels_mixed {A} (label_map : list (Z * Z)) (choice : nat → list Z)
    (X : list A) (y : list Z) c :
  (∀ k, length (choice k) = k ∧ Forall (λ v, v = 1 ∨ v = 2) (choice k)) →
  Forall (λ v, 0 <= v <= 3) label_map.*2 →
  clean_labels label_map choice X y = Ok c →
  length (y_mixed c) = length (y_mapped_clean c) ∧
  Forall (λ v, v = 1 ∨ v = 2) (y_mixed c) ∧
  (∀ i m, y_mapped_clean c !! i = Some m → m ≠ 3 → y_mixed c !! i = Some m).
Proof.
  intros Hchoice Hvals (ym & Hym & Hymc & Hmixed)%clean_labels_Ok.
  set (ymc := y_mapped_clean c) in *. set (idx := members ymc 3) in *.
  destruct (Hchoice (length idx)) as [Hlen Hdraws].
  assert (Forall (λ v, 1 <= v <= 3) ymc) as Hymc_range.
  { rewrite Hymc. apply py_for_Ok in Hym.
    assert (Forall (λ v, 0 <= v <= 3) ym) as Hym_range.
    { apply Forall_forall. intros m (i & Hi)%list_elem_of_lookup.
      destruct (Forall2_lookup_r _ _ _ _ _ Hym Hi) as (d & _ & Hd%dict_get_Ok).
      apply (proj1 (Forall_forall _ _) Hvals). apply list_elem_of_fmap.
      by exists (d, m). }
    unfold Np.ne_scalar.
    pose proof (compress_Forall (λ v, v ≠ 0) (λ x : Z, negb (x =? 0)) ym) as Hnz.
    assert (Forall (λ v, v ≠ 0) (Np.compress ((λ x : Z, negb (x =? 0)) <$> ym) ym)) as Hnz'.
    { apply Hnz. intros x. by rewrite negb_true_iff, Z.eqb_neq. }
    pose proof (Forall_compress (λ v, 0 <= v <= 3)
                  ((λ x : Z, negb (x =? 0)) <$> ym) ym Hym_range) as Hr.
    assert (Forall (λ v, v ≠ 0 ∧ 0 <= v <= 3)
              (Np.compress ((λ x : Z, negb (x =? 0)) <$> ym) ym)) as Hboth.
    { apply Forall_and. by split. }
    eapply Forall_impl; [exact Hboth|]. simpl. lia. }
  rewrite Hmixed. split; [apply length_put|]. split.
  - apply Forall_forall. intros v (i & Hi)%list_elem_of_lookup.
    destruct (decide (i ∈ idx)) as [Hin|Hout].
    + apply list_elem_of_lookup in Hin as [k Hk].
      rewrite (put_lookup_in idx ymc _ k i) in Hi; [| |done|done|].
      * apply (proj1 (Forall_forall _ _) Hdraws). by eapply list_elem_of_lookup_2.
      * eapply NoDup_fmap_1 with (f := id). rewrite list_fmap_id.
        pose proof (members_sorted ymc 3) as Hs. fold idx in Hs.
        clear -Hs. induction Hs as [|j l Hs IH Hlt]; constructor; [|done].
        intros Hj. apply (proj1 (Forall_forall _ _) Hlt) in Hj. lia.
      * apply lookup_lt_Some in Hi. by rewrite length_put in Hi.
    + rewrite put_lookup_notin in Hi by done.
      pose proof (Forall_lookup_1 _ _ _ _ Hymc_range Hi) as Hv. simpl in Hv.
      assert (v ≠ 3).
      { intros ->. apply Hout. by apply elem_of_members. }
      lia.
  - intros i m Hi Hm. rewrite put_lookup_notin; [done|].
    intros Hin%elem_of_members. congruence.
Qed.

Lemma clean_labels_mixed_witness :
  let X := [10; 11; 12; 13; 14]%nat in
  let y := [4; 7; 0; 2; 9] in
  let choice := λ k : nat, replicate k 2 in
  (∀ k, length (choice k) = k ∧ Forall (λ v, v = 1 ∨ v = 2) (choice k)) ∧
  Forall (λ v, 0 <= v <= 3) label_map_fashion.*2 ∧
  ∃ c, clean_labels label_map_fashion choice X y = Ok c ∧
    length (y_mixed c) = length (y_mapped_clean c) ∧
    Forall (λ v, v = 1 ∨ v = 2) (y_mixed c) ∧
    (∀ i m, y_mapped_clean c !! i = Some m → m ≠ 3 → y_mixed c !! i = Some m).
Proof.
  assert (∀ k : nat, length (replicate k 2) = k ∧
            Forall (λ v, v = 1 ∨ v = 2) (replicate k 2)) as Hchoice.
  { intros k. split; [apply length_replicate|]. apply Forall_replicate. by right. }
  assert (Forall (λ v, 0 <= v <= 3) label_map_fashion.*2) as Hvals.
  { unfold label_map_fashion. simpl.
    repeat (apply Forall_cons; split; [lia|]). by apply Forall_nil. }
  split; [exact Hchoice|]. split; [exact Hvals|].
  destruct (clean_labels label_map_fashion (λ k : nat, replicate k 2)
              [10; 11; 12; 13; 14]%nat [4; 7; 0; 2; 9]) as [c|e] eqn:Hc;
    [|by vm_compute in Hc].
  exists c. split; [reflexivity|].
  exact (clean_labels_mixed label_map_fashion _ _ _ c Hchoice Hvals Hc).
Defined.

(** ** Sanity checks *)



Lemma sum_bool_eq_scalar (a : list Z) v :
  Np.sum_bool (Np.eq_scalar a v) = cluster_size a v.
Proof.
  unfold cluster_size, Np.eq_scalar. induction a as [|x a IH]; [done|].
  rewrite fmap_cons, filter_cons. simpl. rewrite IH.
  destruct (Z.eqb_spec x v); [by rewrite decide_True | by rewrite decide_False].
Qed.











Lemma elem_of_keys_with (d : list (Z * Z)) t k : k ∈ keys_with d t ↔ (k, t) ∈ d.
Proof.
  unfold keys_with. rewrite list_elem_of_fmap. split.
  - intros ([k' v] & -> & [Hv Hin]%list_elem_of_filter). simpl in *. by subst.
  - intros Hin. exists (k, t). split; [done|]. by apply list_elem_of_filter.
Qed.



Lemma length_filter_disjoint {A} (P Q R : A → Prop)
    `{!∀ x, Decision (P x)} `{!∀ x, Decision (Q x)} `{!∀ x, Decision (R x)}
    (xs : list A) :
  (∀ x, R x ↔ P x ∨ Q x) → (∀ x, P x → Q x → False) →
  length (filter R xs) = (length (filter P xs) + length (filter Q xs))%nat.
Proof.
  intros HR Hdis. induction xs as [|x xs IH]; [done|].
  rewrite !filter_cons.
  destruct (decide (P x)) as [HP|HP], (decide (Q x)) as [HQ|HQ].
  - by destruct (Hdis x).
  - rewrite decide_True by (apply HR; tauto). simpl. lia.
  - rewrite decide_True by (apply HR; tauto). simpl. lia.
  - rewrite decide_False by (rewrite HR; tauto). lia.
Qed.

Lemma length_filter_never {A} (P : A → Prop) `{!∀ x, Decision (P x)} (xs : list A) :
  (∀ x, ¬ P x) → length (filter P xs) = O.
Proof.
  intros HP. induction xs as [|x xs IH]; [done|].
  rewrite filter_cons, decide_False by apply HP. done.
Qed.








Lemma joint_sum_mismatch (y c : list Z) l id :
  length y ≠ length c → (1 < length y)%nat → (1 < length c)%nat →
  joint_sum y c l id = Raise ValueError.
Proof.
  intros Hne Hy Hc. unfold joint_sum, Np.mul_bool, Np.eq_scalar.
  rewrite !length_fmap, decide_False by done.
  destruct y as [|y0 [|y1 y]]; simpl in Hy; try lia.
  destruct c as [|c0 [|c1 c]]; simpl in Hc; try lia. done.
Qed.

Lemma unique_cons_of_nonempty (a : list Z) :
  (0 < length a)%nat → ∃ x xs, Np.unique a = x :: xs.
Proof.
  intros Ha. destruct (Np.unique a) as [|x xs] eqn:Hu; [|by eauto].
  destruct a as [|a0 a]; simpl in Ha; [lia|].
  assert (a0 ∈ Np.unique (a0 :: a)) as Hin by (rewrite elem_of_unique; set_solver).
  rewrite Hu in Hin. by apply elem_of_nil in Hin.
Qed.

(** X20: when the label array and the cluster array have different lengths
    and both hold more than one entry, the product of the two masks cannot
    be broadcast: the true-label cell raises ValueError, and so does the
    time-label cell as soon as the dictionary maps some digit to a label
    from 1 to 3. *)
Theorem confusion_mtx_length_mismatch (label_map : list (Z * Z))
    (y_subset cluster : list Z) :
  length y_subset ≠ length cluster →
  (1 < length y_subset)%nat → (1 < length cluster)%nat →
  confusion_mtx_true_label y_subset cluster = Raise ValueError ∧
  ((∃ k t, (k, t) ∈ label_map ∧ 1 <= t <= 3) →
   confusion_mtx_time_label label_map y_subset cluster = Raise ValueError).
Proof.
  intros Hne Hy Hc.
  destruct (unique_cons_of_nonempty cluster) as (c0 & cs & Hcs); [lia|].
  split.
  - destruct (unique_cons_of_nonempty y_subset) as (l0 & ls & Hls); [lia|].
    unfold confusion_mtx_true_label. rewrite Hls, Hcs. cbn [py_for].
    by rewrite joint_sum_mismatch.
  - intros (k & t & Hkt & Ht).
    destruct (confusion_mtx_time_label label_map y_subset cluster) as [m|e] eqn:Hm.
    + exfalso. unfold confusion_mtx_time_label in Hm. rewrite Hcs in Hm.
      apply py_for_Ok in Hm.
      assert (t ∈ [1; 2; 3]) as Hin by (assert (t = 1 ∨ t = 2 ∨ t = 3) by lia; set_solver).
      apply list_elem_of_lookup in Hin as [i Hi].
      destruct (Forall2_lookup_l _ _ _ _ _ Hm Hi) as (row & _ & Hrow).
      cbn [py_for] in Hrow.
      assert (k ∈ keys_with label_map t) as Hk by by apply elem_of_keys_with.
      destruct (keys_with label_map t) as [|k0 ks]; [by apply elem_of_nil in Hk|].
      cbn [py_fold] in Hrow. by rewrite joint_sum_mismatch in Hrow.
    + f_equal. unfold confusion_mtx_time_label in Hm.
      apply py_for_raise in Hm as (t' & _ & Hm).
      apply py_for_raise in Hm as (c' & _ & Hm).
      destruct (py_fold _ _ _) as [q|e'] eqn:Hfold in Hm; [done|].
      simpl in Hm. injection Hm as ->.
      apply py_fold_raise in Hfold as (acc & k' & _ & Hfold).
      rewrite joint_sum_mismatch in Hfold by done. simpl in Hfold. congruence.
Qed.



Lemma confusion_mtx_length_mismatch_witness :
  confusion_mtx_true_label [3; 7; 2] [0; 1] = Raise ValueError ∧
  confusion_mtx_time_label label_map_fashion [3; 7; 2] [0; 1] = Raise ValueError.
Proof.
  destruct (confusion_mtx_length_mismatch label_map_fashion [3; 7; 2] [0; 1])
    as [Htrue Htime]; [simpl; lia..|].
  split; [exact Htrue|]. apply Htime. exists 0, 1. split; [|lia].
  unfold label_map_fashion. set_solver.
Defined.

(** ** Display of a share of the samples *)

Lemma length_where_from (mask : list bool) : ∀ s,
  length (Np.where_from s mask) = Np.sum_bool mask.
Proof.
  induction mask as [|b mask IH]; intros s; [done|].
  simpl. destruct b; simpl; by rewrite IH.
Qed.

Lemma length_members (a : list Z) v : length (members a v) = cluster_size a v.
Proof.
  rewrite <- where0_eq_scalar, <- sum_bool_eq_scalar. apply length_where_from.
Qed.

Lemma members_NoDup (a : list Z) v : NoDup (members a v).
Proof. apply NoDup_filter, NoDup_seq. Qed.

(** [num_samples] is the least integer [n] with [count * percentage <= 100 * n]. *)
Lemma num_samples_bounds (mask : list bool) (percentage : Z) :
  100 * (num_samples mask percentage - 1)
    < Z.of_nat (Np.sum_bool mask) * percentage
    <= 100 * num_samples mask percentage.
Proof.
  unfold num_samples.
  set (N := Z.of_nat (Np.sum_bool mask) * percentage).
  set (x := (inject_Z N / 100)%Q).
  pose proof (Qle_ceiling x) as Hle. pose proof (Qceiling_lt x) as Hlt.
  assert (inject_Z N == x * 100)%Q as HN by (unfold x; field).
  unfold Z.sub in Hlt. rewrite inject_Z_plus, inject_Z_opp in Hlt.
  change (inject_Z 1) with 1%Q in Hlt.
  split.
  - unfold Z.sub. rewrite Zlt_Qlt, HN, inject_Z_mult, inject_Z_plus, inject_Z_opp.
    change (inject_Z 100) with 100%Q. change (inject_Z 1) with 1%Q. lra.
  - rewrite Zle_Qle, HN, inject_Z_mult.
    change (inject_Z 100) with 100%Q. lra.
Qed.

(** X21: for a percentage from 0 to 100 the draw of the display never
    over-asks, whether the label occurs in the subset or not: it succeeds,
    and (for a generator that returns distinct members of the population)
    yields distinct positions of samples with that label, as many as the
    least integer [n] with [count * percentage <= 100 * n]. *)
Theorem selection_random_spec (draw : list nat → nat → list nat)
    (y_subset : list Z) (percentage label : Z) :
  (∀ a n, NoDup a → (n ≤ length a)%nat →
     length (draw a n) = n ∧ NoDup (draw a n) ∧ draw a n ⊆ a) →
  0 <= percentage <= 100 →
  ∃ sel, selection_random draw y_subset percentage label = Ok sel ∧
    NoDup sel ∧
    (∀ i, i ∈ sel → y_subset !! i = Some label) ∧
    100 * (Z.of_nat (length sel) - 1)
      < Z.of_nat (cluster_size y_subset label) * percentage
      <= 100 * Z.of_nat (length sel).
Proof.
  intros Hdraw Hp. unfold selection_random, Np.choice_no_replace.
  pose proof (num_samples_bounds (Np.eq_scalar y_subset label) percentage) as Hn.
  rewrite where0_eq_scalar, length_members.
  rewrite sum_bool_eq_scalar in Hn.
  set (n := num_samples (Np.eq_scalar y_subset label) percentage) in *.
  assert (0 <= n <= Z.of_nat (cluster_size y_subset label)) as Hrange by nia.
  rewrite (proj2 (Z.ltb_ge n 0)) by lia.
  rewrite (proj2 (Z.ltb_ge _ n)) by lia.
  destruct (Hdraw (members y_subset label) (Z.to_nat n)) as (Hlen & Hnd & Hsub).
  { apply members_NoDup. }
  { rewrite length_members. lia. }
  eexists. split; [done|]. split; [done|]. split.
  - intros i Hi. apply elem_of_members. by apply Hsub.
  - rewrite Hlen, Z2Nat.id by lia. done.
Qed.


Lemma selection_random_spec_witness :
  let draw := λ (a : list nat) (n : nat), take n a in
  ∃ sel, selection_random draw [1; 2; 1; 1; 2; 1; 1] 30 1 = Ok sel ∧
    NoDup sel ∧
    (∀ i, i ∈ sel → [1; 2; 1; 1; 2; 1; 1] !! i = Some 1) ∧
    100 * (Z.of_nat (length sel) - 1)
      < Z.of_nat (cluster_size [1; 2; 1; 1; 2; 1; 1] 1) * 30
      <= 100 * Z.of_nat (length sel).
Proof.
  apply selection_random_spec.
  - intros a n Hnd Hn. split; [|split].
    + rewrite length_take. lia.
    + eapply sublist_NoDup; [done | apply sublist_take].
    + apply subseteq_take.
  - lia.
Defined.


(** ** Model selection *)






(** ** Class means *)

Lemma mean_axis0_centroid (data : list (list Q)) N W (idxs : list nat) rows :
  rectangular N W data →
  Forall2 (λ i row, data !! i = Some row) idxs rows → idxs ≠ [] →
  is_centroid data idxs W (Np.mean_axis0 rows).
Proof.
  intros [_ Hdata] Hrows Hne.
  destruct (mean_axis0_spec (length idxs) W rows) as [Hlen Hmean].
  - split; [symmetry; by eapply Forall2_length|].
    apply Forall_forall. intros row (j & Hj)%list_elem_of_lookup.
    destruct (Forall2_lookup_r _ _ _ _ _ Hrows Hj) as (i & _ & Hi).
    by eapply (Forall_lookup_1 _ _ _ _ Hdata).
  - intros ->. by apply Forall2_nil_inv_r in Hrows.
  - split; [done|]. intros d Hd. destruct (Hmean d Hd) as (x & Hx & Heq).
    exists x. split; [done|]. by rewrite Heq, (column_sum_rows data idxs rows d Hrows).
Qed.

Lemma wrap_index_nonneg (n : nat) (i : Z) :
  0 <= i < Z.of_nat n → Np.wrap_index n i = Ok (Z.to_nat i).
Proof.
  intros Hi. unfold Np.wrap_index.
  rewrite (proj2 (Z.leb_le 0 i)), (proj2 (Z.ltb_lt i _)) by lia. done.
Qed.

Lemma wrap_index_cases (n : nat) (i : Z) :
  (∃ k, Np.wrap_index n i = Ok k ∧ (k < n)%nat ∧ - Z.of_nat n <= i < Z.of_nat n) ∨
  (Np.wrap_index n i = Raise IndexError ∧ (i < - Z.of_nat n ∨ Z.of_nat n <= i)).
Proof.
  unfold Np.wrap_index.
  destruct (Z.leb_spec 0 i), (Z.ltb_spec i (Z.of_nat n)); simpl.
  - left. eexists. split; [done|]. lia.
  - destruct (Z.leb_spec (- Z.of_nat n) i), (Z.ltb_spec i 0); simpl;
      try lia; right; split; [done | lia].
  - destruct (Z.leb_spec (- Z.of_nat n) i), (Z.ltb_spec i 0); simpl; try lia.
    + left. eexists. split; [done|]. lia.
    + right. split; [done | lia].
  - lia.
Qed.

Lemma class_means_rounds (X : list (list Q)) (y : list Z) (D K : nat) order :
  length X = length y → rectangular (length X) D X →
  NoDup order → (∀ l, l ∈ order → l ∈ y ∧ 0 <= l < Z.of_nat K) →
  ∀ Xmean, rectangular K D Xmean →
  ∃ Xmean', py_fold (class_mean_round X y) Xmean order = Ok Xmean' ∧
    rectangular K D Xmean' ∧
    (∀ l, l ∈ order →
       ∃ row, Xmean' !! Z.to_nat l = Some row ∧ is_centroid X (members y l) D row) ∧
    (∀ j, (∀ l, l ∈ order → Z.to_nat l ≠ j) → Xmean' !! j = Xmean !! j).
Proof.
  intros Hlen HX. induction 1 as [|l order Hl Hnd IH]; intros Horder Xmean HXmean.
  { exists Xmean. split; [done|]. split; [done|].
    split; [by intros ? ?%elem_of_nil | done]. }
  destruct (Horder l) as [Hy Hrange]; [set_solver|].
  destruct (bool_index_members X y l Hlen) as (rows & Hrows & Hmem).
  assert (is_centroid X (members y l) D (Np.mean_axis0 rows)) as Hcentroid.
  { eapply mean_axis0_centroid; [done..|]. by apply members_nonempty. }
  destruct HXmean as [HK HD].
  destruct IH with (Xmean := <[Z.to_nat l := Np.mean_axis0 rows]> Xmean)
    as (Xmean' & Hfold & Hrect & Hdone & Hkeep).
  { intros l' Hin. apply Horder. set_solver. }
  { split; [by rewrite length_insert|].
    apply Forall_insert; [done|]. apply Hcentroid. }
  exists Xmean'. split.
  { cbn [py_fold]. unfold class_mean_round at 2. rewrite Hrows. simpl.
    rewrite wrap_index_nonneg by lia. simpl. exact Hfold. }
  split; [done|]. split.
  - intros l' [->|Hin]%elem_of_cons; [|by apply Hdone].
    exists (Np.mean_axis0 rows). split; [|done].
    rewrite Hkeep.
    + apply list_lookup_insert_eq. lia.
    + intros l' Hin Heq. destruct (Horder l') as [_ ?]; [set_solver|].
      assert (l' = l) as -> by lia. done.
  - intros j Hj. rewrite Hkeep by (intros; apply Hj; set_solver).
    apply list_lookup_insert_ne. apply Hj. set_solver.
Qed.

(** X24: when the labels are the numbers below the number of classes,
    [class_means] succeeds in whatever order the set of labels is iterated,
    and row [l] of [Xmean] is the centroid of the images with label [l], for
    every label [l] of [y]. *)
Theorem class_means_spec (order : list Z) (D : nat) (X : list (list Q)) (y : list Z) :
  order ≡ₚ Np.unique y →
  length X = length y → rectangular (length X) D X →
  (∀ l, l ∈ y → 0 <= l < Z.of_nat (length (Np.unique y))) →
  ∃ Xmean, class_means order D X y = Ok Xmean ∧
    rectangular (length (Np.unique y)) D Xmean ∧
    ∀ l, l ∈ y →
      ∃ row, Xmean !! Z.to_nat l = Some row ∧ is_centroid X (members y l) D row.
Proof.
  intros Hperm Hlen HX Hrange.
  assert (∀ l, l ∈ order ↔ l ∈ y) as Hin.
  { intros l. by rewrite Hperm, elem_of_unique. }
  destruct (class_means_rounds X y D (length (Np.unique y)) order Hlen HX)
    with (Xmean := Np.zeros (length (Np.unique y)) D)
    as (Xmean & Hfold & Hrect & Hdone & _).
  - rewrite Hperm. apply unique_NoDup.
  - intros l Hl%Hin. split; [done | by apply Hrange].
  - apply zeros_rectangular.
  - exists Xmean. split; [done|]. split; [done|].
    intros l Hl. apply Hdone. by apply Hin.
Qed.

Lemma class_means_rounds_raise (X : list (list Q)) (y : list Z) (K : nat) order :
  (∃ l, l ∈ order ∧ (l < - Z.of_nat K ∨ Z.of_nat K <= l)) →
  ∀ Xmean, length Xmean = K →
  py_fold (class_mean_round X y) Xmean order = Raise IndexError.
Proof.
  induction order as [|l0 order IH]; intros (l & Hl & Hbad) Xmean HK.
  { by apply elem_of_nil in Hl. }
  cbn [py_fold]. unfold class_mean_round at 2. unfold Np.bool_index.
  destruct (decide _) as [_|_]; [|done]. simpl.
  destruct (wrap_index_cases (length Xmean) l0)
    as [(k & -> & Hk & Hrange)|[-> _]]; [|done].
  simpl. apply IH; [|by rewrite length_insert].
  apply elem_of_cons in Hl as [->|Hl]; [lia|]. by exists l.
Qed.

(** X25: a label outside [-K, K), for [K] the number of different labels,
    makes [class_means] raise IndexError in whatever order the set of labels
    is iterated: the array of the means has only [K] rows. *)
Theorem class_means_label_out_of_range (order : list Z) (D : nat)
    (X : list (list Q)) (y : list Z) :
  order ≡ₚ Np.unique y →
  (∃ l, l ∈ y ∧ (l < - Z.of_nat (length (Np.unique y))
                 ∨ Z.of_nat (length (Np.unique y)) <= l)) →
  class_means order D X y = Raise IndexError.
Proof.
  intros Hperm (l & Hl & Hbad). unfold class_means.
  apply class_means_rounds_raise with (K := length (Np.unique y)).
  - exists l. split; [|done]. by rewrite Hperm, elem_of_unique.
  - unfold Np.zeros. by rewrite length_replicate.
Qed.

Lemma class_means_spec_witness :
  let X := [[0; 2]; [4; 4]; [2; 6]; [1; 1]]%Q in
  let y := [1; 0; 1; 0] in
  ∃ Xmean, class_means [1; 0] 2 X y = Ok Xmean ∧
    rectangular (length (Np.unique y)) 2 Xmean ∧
    ∀ l, l ∈ y →
      ∃ row, Xmean !! Z.to_nat l = Some row ∧ is_centroid X (members y l) 2 row.
Proof.
  apply class_means_spec.
  - apply perm_swap.
  - reflexivity.
  - split; [reflexivity|]. repeat (apply Forall_cons; split; [reflexivity|]).
    by apply Forall_nil.
  - intros l Hl. repeat (apply elem_of_cons in Hl as [->|Hl]; [by vm_compute|]).
    by apply elem_of_nil in Hl.
Defined.

Lemma class_means_label_out_of_range_witness :
  class_means [0; 3] 2 [[0; 2]; [4; 4]]%Q [0; 3] = Raise IndexError.
Proof.
  apply class_means_label_out_of_range; [done|].
  exists 3. split; [set_solver | by right].
Defined.

(** ** Similarity of the class means *)




















(** ** Ticks of the kernel display *)

Lemma take_values (a : list Z) idx s :
  Np.take a idx = Ok s → s = (λ i : nat, default 0 (a !! i)) <$> idx.
Proof.
  intros H%take_Ok. induction H as [|i x idx s Hi _ IH]; [done|].
  rewrite fmap_cons, Hi, IH. done.
Qed.

Lemma take_seq (a : list Z) : Np.take a (seq 0 (length a)) = Ok a.
Proof.
  apply take_Ok. apply Forall2_same_length_lookup. split; [by rewrite length_seq|].
  intros i j x [-> _]%lookup_seq Hx. done.
Qed.

Lemma argsort_values (a : list Z) idx :
  is_argsort a idx →
  ∃ s, Np.take a idx = Ok s ∧ StronglySorted Z.le s ∧ s ≡ₚ a.
Proof.
  intros [Hperm (s & Hs & Hsorted)]. exists s. split; [done|]. split; [done|].
  rewrite (take_values _ _ _ Hs), Hperm.
  by rewrite <- (take_values _ _ _ (take_seq a)).
Qed.

Lemma StronglySorted_lt_le (l : list Z) :
  StronglySorted Z.lt l → StronglySorted Z.le l.
Proof.
  induction 1 as [|x l _ IH Hx]; constructor; [done|].
  eapply Forall_impl; [exact Hx|]. simpl. lia.
Qed.

(** Sorting the values of [np.unique] again changes nothing. *)
Lemma argsort_unique (y : list Z) idx :
  is_argsort (Np.unique y) idx → idx = seq 0 (length (Np.unique y)).
Proof.
  intros Harg. pose proof Harg as [Hperm _].
  destruct (argsort_values _ _ Harg) as (s & Hs & Hsorted & Hsperm).
  assert (s = Np.unique y) as ->.
  { apply (StronglySorted_unique Z.le); [done| |done].
    apply StronglySorted_lt_le, unique_sorted. }
  apply take_Ok in Hs.
  apply list_eq_same_length with (length (Np.unique y)).
  - by rewrite length_seq.
  - by rewrite (Permutation_length Hperm), length_seq.
  - intros p i j Hp Hi [-> _]%lookup_seq. simpl.
    destruct (Forall2_lookup_l _ _ _ _ _ Hs Hi) as (v & Hv & Hiv).
    by apply (NoDup_lookup (Np.unique y) i p v (unique_NoDup y)).
Qed.

Lemma midpoints_unfold (argsort : list Z → list nat) (y : list Z) :
  is_argsort (Np.unique y) (argsort (Np.unique y)) →
  midpoints argsort y
  = Ok (Np.unique y,
        zip_with (λ s c : Z, (inject_Z s - inject_Z c / 2 - 1)%Q)
                 (Np.cumsum (Np.unique_counts y)) (Np.unique_counts y)).
Proof.
  intros Harg%argsort_unique. unfold midpoints. rewrite Harg, take_seq. simpl.
  assert (length (Np.unique y) = length (Np.unique_counts y)) as ->.
  { unfold Np.unique_counts. by rewrite length_fmap. }
  by rewrite take_seq.
Qed.

Lemma cumsum_from_lookup (a : list Z) : ∀ acc k,
  (k < length a)%nat →
  Np.cumsum_from acc a !! k = Some (acc + foldr Z.add 0 (take (S k) a)).
Proof.
  induction a as [|x a IH]; intros acc k Hk; simpl in Hk; [lia|].
  destruct k as [|k]; simpl.
  - f_equal. lia.
  - rewrite IH by lia. f_equal. lia.
Qed.

Lemma length_cumsum_from (a : list Z) : ∀ acc,
  length (Np.cumsum_from acc a) = length a.
Proof. induction a as [|x a IH]; intros acc; simpl; [done|]. by rewrite IH. Qed.

Lemma counts_sum (y ls : list Z) :
  NoDup ls →
  foldr Z.add 0 ((λ v : Z, Z.of_nat (cluster_size y v)) <$> ls)
  = Z.of_nat (length (filter (λ x : Z, x ∈ ls) y)).
Proof.
  induction 1 as [|l ls Hl Hnd IH].
  - simpl. rewrite length_filter_never; [done|]. by intros x ?%elem_of_nil.
  - rewrite fmap_cons. cbn [foldr]. rewrite IH. unfold cluster_size.
    rewrite (length_filter_disjoint (λ x, x = l) (λ x, x ∈ ls) (λ x, x ∈ l :: ls)).
    + lia.
    + intros x. by rewrite elem_of_cons.
    + by intros x ->.
Qed.

Lemma unique_prefix (y : list Z) k l x :
  Np.unique y !! k = Some l → x ∈ y →
  x ∈ take (S k) (Np.unique y) ↔ x <= l.
Proof.
  intros Hk Hx. pose proof (unique_sorted y) as Hsorted.
  rewrite elem_of_take. split.
  - intros (j & Hj & Hjk).
    destruct (decide (j = k)) as [->|Hne]; [by simplify_eq|].
    pose proof (StronglySorted_lookup_lt Z.lt _ j k x l Hsorted Hj Hk). lia.
  - intros Hle. rewrite <- elem_of_unique in Hx.
    apply list_elem_of_lookup in Hx as [j Hj]. exists j. split; [done|].
    destruct (decide (j < S k)%nat) as [|Hge]; [done|].
    pose proof (StronglySorted_lookup_lt Z.lt _ k j l x Hsorted Hk Hj). lia.
Qed.

Lemma cumsum_counts_lookup (y : list Z) k l :
  Np.unique y !! k = Some l →
  Np.cumsum (Np.unique_counts y) !! k
  = Some (Z.of_nat (below y l) + Z.of_nat (cluster_size y l)).
Proof.
  intros Hk. unfold Np.cumsum, Np.unique_counts.
  rewrite cumsum_from_lookup
    by (rewrite length_fmap; by eapply lookup_lt_Some).
  f_equal. rewrite Z.add_0_l, <- fmap_take.
  rewrite (list_fmap_ext _ (λ v : Z, Z.of_nat (cluster_size y v))
             (take (S k) (Np.unique y)))
    by (intros; simpl; by rewrite sum_bool_eq_scalar).
  rewrite counts_sum.
  2:{ eapply sublist_NoDup; [apply unique_NoDup | apply sublist_take]. }
  rewrite (filter_ext_in _ (λ x : Z, x <= l)) by (intros; by apply unique_prefix).
  unfold below, cluster_size.
  rewrite (length_filter_disjoint (λ x, x < l) (λ x, x = l) (λ x, x <= l)); lia.
Qed.

(** X28: given the argsort of the sorted labels, the re-sorting of the cell
    changes nothing, and the tick of the [k]-th label [l] is placed at the
    number of samples with a smaller label, plus half the number of
    samples with label [l], minus one. *)
Theorem midpoints_spec (argsort : list Z → list nat) (y_subset : list Z) :
  is_argsort (Np.unique y_subset) (argsort (Np.unique y_subset)) →
  ∃ mids, midpoints argsort y_subset = Ok (Np.unique y_subset, mids) ∧
    length mids = length (Np.unique y_subset) ∧
    ∀ k l, Np.unique y_subset !! k = Some l →
      ∃ q, mids !! k = Some q ∧
        (q == inject_Z (Z.of_nat (below y_subset l))
              + inject_Z (Z.of_nat (cluster_size y_subset l)) / 2 - 1)%Q.
Proof.
  intros Harg. eexists. split; [by apply midpoints_unfold|]. split.
  - unfold Np.cumsum, Np.unique_counts.
    rewrite length_zip_with, length_cumsum_from, length_fmap. lia.
  - intros k l Hk. eexists. split.
    + rewrite lookup_zip_with, (cumsum_counts_lookup _ _ _ Hk). simpl.
      unfold Np.unique_counts. rewrite list_lookup_fmap, Hk. simpl. done.
    + rewrite sum_bool_eq_scalar, inject_Z_plus. field.
Qed.

(** In a non-decreasing list the entries equal to [l] fill the positions
    from the number of smaller entries on. *)
Lemma sorted_block (s : list Z) (l : Z) :
  StronglySorted Z.le s →
  ∀ p, s !! p = Some l ↔ (below s l ≤ p < below s l + cluster_size s l)%nat.
Proof.
  unfold below, cluster_size.
  induction 1 as [|x s Hs IH Hx]; intros p.
  { simpl. split; [done | lia]. }
  rewrite !filter_cons.
  destruct (decide (x < l)) as [Hlt|Hge].
  - rewrite decide_False by lia. simpl. destruct p as [|p]; simpl.
    + split; [intros [= ->]; lia | lia].
    + rewrite (IH p). lia.
  - assert (filter (λ y : Z, y < l) s = []) as Hnil.
    { apply nil_length_inv, length_filter_none.
      eapply Forall_impl; [exact Hx|]. simpl. lia. }
    rewrite Hnil in *. destruct (decide (x = l)) as [->|Hne]; simpl.
    + destruct p as [|p]; simpl; [split; [lia | done]|].
      rewrite (IH p). simpl. lia.
    + assert (filter (λ y : Z, y = l) s = []) as Hnil'.
      { apply nil_length_inv, length_filter_none.
        eapply Forall_impl; [exact Hx|]. simpl. lia. }
      rewrite Hnil' in *. destruct p as [|p]; simpl.
      * split; [intros [= ->]; lia | lia].
      * rewrite (IH p). simpl. lia.
Qed.

Lemma argsort_position (y : list Z) idx s p l :
  Np.take y idx = Ok s →
  (∃ i, idx !! p = Some i ∧ y !! i = Some l) ↔ s !! p = Some l.
Proof.
  intros Hs%take_Ok. split.
  - intros (i & Hi & Hl).
    destruct (Forall2_lookup_l _ _ _ _ _ Hs Hi) as (v & Hv & Hiv). congruence.
  - intros Hp. destruct (Forall2_lookup_r _ _ _ _ _ Hs Hp) as (i & Hi & Hiv).
    by exists i.
Qed.

(** X29: in the display sorted by class, the samples with the [k]-th label
    occupy one block of consecutive positions, and the tick of that label
    marks the block: with [c] the number of those samples and [q] the tick,
    the block consists of the positions [p] with
    [q + 1 - c/2 <= p < q + 1 + c/2]. *)
Theorem midpoints_mark_blocks (argsort : list Z → list nat) (y_subset : list Z)
    (labels : list Z) (mids : list Q) :
  is_argsort y_subset (argsort y_subset) →
  is_argsort (Np.unique y_subset) (argsort (Np.unique y_subset)) →
  midpoints argsort y_subset = Ok (labels, mids) →
  ∀ k l q, labels !! k = Some l → mids !! k = Some q →
    let c := inject_Z (Z.of_nat (cluster_size y_subset l)) in
    ∀ p : nat,
      (∃ i, argsort y_subset !! p = Some i ∧ y_subset !! i = Some l) ↔
      (q + 1 - c / 2 <= inject_Z (Z.of_nat p) < q + 1 + c / 2)%Q.
Proof.
  intros Hsort Hresort Hmid k l q Hl Hq c p.
  rewrite midpoints_unfold in Hmid by done. injection Hmid as <- <-.
  rewrite lookup_zip_with, (cumsum_counts_lookup _ _ _ Hl) in Hq. simpl in Hq.
  unfold Np.unique_counts in Hq. rewrite list_lookup_fmap, Hl in Hq.
  simpl in Hq. injection Hq as <-.
  rewrite sum_bool_eq_scalar, inject_Z_plus. fold c.
  destruct (argsort_values _ _ Hsort) as (s & Hs & Hsorted & Hperm).
  rewrite (argsort_position _ _ _ p l Hs), (sorted_block s l Hsorted p).
  assert (below s l = below y_subset l) as -> by (unfold below; by rewrite Hperm).
  assert (cluster_size s l = cluster_size y_subset l) as ->
    by (unfold cluster_size; by rewrite Hperm).
  set (b := below y_subset l). set (n := cluster_size y_subset l) in *.
  assert (inject_Z (Z.of_nat b) <= inject_Z (Z.of_nat p)
          ↔ (b ≤ p)%nat)%Q as Hlow by (rewrite <- Zle_Qle; lia).
  assert (inject_Z (Z.of_nat p) < inject_Z (Z.of_nat b) + c
          ↔ (p < b + n)%nat)%Q as Hhigh.
  { unfold c. rewrite <- inject_Z_plus, <- Zlt_Qlt. lia. }
  rewrite <- Hlow, <- Hhigh. clear Hlow Hhigh. clearbody c.
  generalize (inject_Z (Z.of_nat b)) (inject_Z (Z.of_nat p)). intros B P.
  assert (B + c - c / 2 - 1 + 1 - c / 2 == B)%Q as -> by field.
  assert (B + c - c / 2 - 1 + 1 + c / 2 == B + c)%Q as -> by field.
  done.
Qed.

Lemma midpoints_spec_witness :
  let argsort := λ a : list Z, seq 0 (length a) in
  let y := [2; 0; 2; 1; 0; 2] in
  ∃ mids, midpoints argsort y = Ok (Np.unique y, mids) ∧
    length mids = length (Np.unique y) ∧
    ∀ k l, Np.unique y !! k = Some l →
      ∃ q, mids !! k = Some q ∧
        (q == inject_Z (Z.of_nat (below y l))
              + inject_Z (Z.of_nat (cluster_size y l)) / 2 - 1)%Q.
Proof.
  intros argsort y. apply midpoints_spec. split; [done|].
  exists [0; 1; 2]. split; [done|].
  repeat (constructor; [|repeat (apply Forall_cons; split; [lia|]); by apply Forall_nil]).
  constructor.
Defined.

Lemma midpoints_mark_blocks_witness :
  let y := [2; 0; 2; 1; 0; 2] in
  let argsort := λ a : list Z,
    if decide (a = y) then [1; 4; 3; 0; 2; 5]%nat else seq 0 (length a) in
  let c := inject_Z (Z.of_nat (cluster_size y 2)) in
  ∃ labels mids q,
    midpoints argsort y = Ok (labels, mids) ∧ mids !! 2%nat = Some q ∧
    ∀ p : nat,
      (∃ i, argsort y !! p = Some i ∧ y !! i = Some 2) ↔
      (q + 1 - c / 2 <= inject_Z (Z.of_nat p) < q + 1 + c / 2)%Q.
Proof.
  intros y argsort c.
  assert (StronglySorted Z.le [0; 0; 1; 2; 2; 2]) as Hsorted.
  { repeat (constructor;
            [|repeat (apply Forall_cons; split; [lia|]); by apply Forall_nil]).
    constructor. }
  assert (StronglySorted Z.le [0; 1; 2]) as Hsorted'.
  { repeat (constructor;
            [|repeat (apply Forall_cons; split; [lia|]); by apply Forall_nil]).
    constructor. }
  destruct (midpoints argsort y) as [[labels mids]|e] eqn:Hmid;
    [|by vm_compute in Hmid].
  assert (labels = [0; 1; 2]) as Hlabels by (vm_compute in Hmid; congruence).
  destruct (mids !! 2%nat) as [q|] eqn:Hq;
    [|vm_compute in Hmid; injection Hmid as _ <-; discriminate Hq].
  exists labels, mids, q. split; [done|]. split; [done|].
  apply (midpoints_mark_blocks argsort y labels mids) with (k := 2%nat).
  - split.
    + apply (bool_decide_unpack _). by vm_compute.
    + by exists [0; 0; 1; 2; 2; 2].
  - split; [done|]. by exists [0; 1; 2].
  - done.
  - by rewrite Hlabels.
  - done.
Defined.

(** ** The stream of vertical lines, horizontal lines and plus signs *)

Lemma elem_of_where0_ne (y : list Z) v i :
  i ∈ Np.where0 (Np.ne_scalar y v) ↔ ∃ x, y !! i = Some x ∧ x ≠ v.
Proof.
  unfold Np.where0, Np.ne_scalar.
  rewrite where_from_filter, list_elem_of_filter, elem_of_seq, length_fmap.
  rewrite Nat.sub_0_r, list_lookup_fmap. split.
  - intros [Hi _]. destruct (y !! i) as [x|]; [|done]. simpl in Hi.
    exists x. split; [done|]. destruct (Z.eqb_spec x v); [done | done].
  - intros (x & Hx & Hne). rewrite Hx. simpl. split.
    + destruct (Z.eqb_spec x v); done.
    + split; [lia|]. apply lookup_lt_Some in Hx. lia.
Qed.

Lemma choice_Ok {A} (draw : list A → nat → list A) (a : list A) n :
  a ≠ [] → Np.choice draw a n = Ok (draw a n).
Proof. by destruct a, n. Qed.

(** X30: for at least one image per kind and generators that return the
    requested number of entries of the population, [create_streams] succeeds
    on the labels of the plus data set; the stream has [2 * n] entries, its
    first [n] have the time label 0 and show vertical lines or plus signs
    only, its last [n] have the time label 1 and show horizontal lines or
    plus signs only, and [stream_c] holds the class of the selected images. *)
Theorem create_streams_spec (draw_before draw_after : list nat → nat → list nat)
    (n1 n : nat) :
  (∀ a k, a ≠ [] → length (draw_before a k) = k ∧ draw_before a k ⊆ a) →
  (∀ a k, a ≠ [] → length (draw_after a k) = k ∧ draw_after a k ⊆ a) →
  (0 < n1)%nat →
  ∃ st, create_streams draw_before draw_after (plus_labels n1) n = Ok st ∧
    length (sel st) = (2 * n)%nat ∧
    length (stream_y st) = (2 * n)%nat ∧
    length (stream_c st) = (2 * n)%nat ∧
    ∀ i j c, sel st !! i = Some j → stream_c st !! i = Some c →
      plus_labels n1 !! j = Some c ∧
      ((i < n)%nat → stream_y st !! i = Some 0 ∧ (c = 0 ∨ c = 2)) ∧
      ((n ≤ i)%nat → stream_y st !! i = Some 1 ∧ (c = 1 ∨ c = 2)).
Proof.
  intros Hbefore Hafter Hn1. set (y := plus_labels n1).
  assert (∀ j c, y !! j = Some c → c = 0 ∨ c = 1 ∨ c = 2) as Hvals.
  { intros j c Hc%list_elem_of_lookup_2. unfold y, plus_labels in Hc.
    rewrite !elem_of_app in Hc.
    destruct Hc as [Hc|[Hc|Hc]]; apply elem_of_replicate in Hc as [-> _]; auto. }
  assert (Np.where0 (Np.ne_scalar y 1) ≠ []) as Hne1.
  { intros Hnil. assert (0%nat ∈ Np.where0 (Np.ne_scalar y 1)) as Hin.
    { apply elem_of_where0_ne. exists 0. split; [|done].
      unfold y, plus_labels. destruct n1; [lia | done]. }
    rewrite Hnil in Hin. by apply elem_of_nil in Hin. }
  assert (Np.where0 (Np.ne_scalar y 0) ≠ []) as Hne0.
  { intros Hnil. assert (n1 ∈ Np.where0 (Np.ne_scalar y 0)) as Hin.
    { apply elem_of_where0_ne. exists 1. split; [|done].
      unfold y, plus_labels.
      rewrite lookup_app_r by (rewrite length_replicate; lia).
      rewrite length_replicate, Nat.sub_diag. destruct n1; [lia | done]. }
    rewrite Hnil in Hin. by apply elem_of_nil in Hin. }
  destruct (Hbefore _ n Hne1) as [Hlenb Hsubb].
  destruct (Hafter _ n Hne0) as [Hlena Hsuba].
  set (before := draw_before (Np.where0 (Np.ne_scalar y 1)) n) in *.
  set (after := draw_after (Np.where0 (Np.ne_scalar y 0)) n) in *.
  destruct (take_total y (before ++ after)) as [cs Hcs].
  { apply Forall_app. split; apply Forall_forall; intros j Hj.
    - apply Hsubb, elem_of_where0_ne in Hj as (x & Hx & _).
      by eapply lookup_lt_Some.
    - apply Hsuba, elem_of_where0_ne in Hj as (x & Hx & _).
      by eapply lookup_lt_Some. }
  exists (Stream (before ++ after) (replicate n 0 ++ replicate n 1) cs).
  split.
  { unfold create_streams. rewrite !choice_Ok by done. simpl.
    fold before after. by rewrite Hcs. }
  apply take_Ok in Hcs. pose proof (Forall2_length _ _ _ Hcs) as Hlen.
  rewrite length_app in Hlen. simpl.
  split; [rewrite length_app; lia|].
  split; [rewrite length_app, !length_replicate; lia|].
  split; [lia|].
  intros i j c Hj Hc.
  assert (y !! j = Some c) as Hyj.
  { destruct (Forall2_lookup_l _ _ _ _ _ Hcs Hj) as (c' & Hc' & Hjc). congruence. }
  split; [done|]. split; intros Hi.
  - rewrite lookup_app_l in Hj by lia.
    apply list_elem_of_lookup_2, Hsubb, elem_of_where0_ne in Hj as (x & Hx & Hne).
    assert (x = c) as -> by congruence. split.
    + rewrite lookup_app_l by (rewrite length_replicate; lia).
      by apply lookup_replicate_2.
    + destruct (Hvals j c Hyj) as [?|[?|?]]; auto. done.
  - rewrite lookup_app_r in Hj by lia.
    assert (i < 2 * n)%nat as Hi2 by (apply lookup_lt_Some in Hc; lia).
    apply list_elem_of_lookup_2, Hsuba, elem_of_where0_ne in Hj as (x & Hx & Hne).
    assert (x = c) as -> by congruence. split.
    + rewrite lookup_app_r by (rewrite length_replicate; lia).
      apply lookup_replicate_2. rewrite length_replicate. lia.
    + destruct (Hvals j c Hyj) as [?|[?|?]]; auto. done.
Qed.

Lemma create_streams_spec_witness :
  let draw := λ (a : list nat) (k : nat), replicate k (default O (head a)) in
  ∃ st, create_streams draw draw (plus_labels 2) 3 = Ok st ∧
    length (stream_c st) = 6%nat ∧
    ∀ i j c, sel st !! i = Some j → stream_c st !! i = Some c →
      plus_labels 2 !! j = Some c ∧
      ((i < 3)%nat → stream_y st !! i = Some 0 ∧ (c = 0 ∨ c = 2)) ∧
      ((3 ≤ i)%nat → stream_y st !! i = Some 1 ∧ (c = 1 ∨ c = 2)).
Proof.
  intros draw.
  assert (∀ (a : list nat) k, a ≠ [] → length (draw a k) = k ∧ draw a k ⊆ a) as Hdraw.
  { intros a k Ha. unfold draw. split; [apply length_replicate|].
    intros x [-> _]%elem_of_replicate. destruct a; [done | set_solver]. }
  destruct (create_streams_spec draw draw 2 3 Hdraw Hdraw)
    as (st & Hst & _ & _ & Hlen & Hspec); [lia|].
  exists st. split; [done|]. split; [done|]. exact Hspec.
Defined.
